(** * docx_to_gcweb_html_extended.js: marker reconstruction over a DOM model

    The program turns the HTML fragment produced by mammoth into GCWeb
    markup.  All the work happens in [transformPlaceholdersToGCWeb], which
    drives cheerio over the parsed tree, and in [main], which wires the
    command line to the conversion.

    The embedding below keeps the tree as cheerio (domhandler) has it:
    element nodes with a tag, an ordered attribute table and children, and
    text nodes.  Selections made by [$(selector)] are snapshots taken in
    document order; every pass is written as the function the snapshot
    iteration computes on the children of the [main] container. *)

From Stdlib Require Import List String Ascii Bool Arith Lia.
Import ListNotations.
Local Open Scope list_scope.
Local Open Scope string_scope.
Set Warnings "-register-all".

(** ** Strings as JavaScript uses them here *)

Module Js.

(** Strings hold the UTF-8 encoding of the JavaScript string. *)
Definition bytes (l : list nat) : string :=
  fold_right (fun n s => String (ascii_of_nat n) s) EmptyString l.

Fixpoint drop (n : nat) (s : string) : string :=
  match n, s with
  | S n', String _ s' => drop n' s'
  | _, _ => s
  end.

(** The white space and line terminators of ECMAScript, which [trim]
    strips and [\s] matches: TAB, LF, VT, FF, CR, SP, U+00A0, U+1680,
    U+2000 to U+200A, U+2028, U+2029, U+202F, U+205F, U+3000, U+FEFF. *)
Definition white_space : list string :=
  map bytes
    [ [9]; [10]; [11]; [12]; [13]; [32];
      [194; 160];
      [225; 154; 128];
      [226; 128; 128]; [226; 128; 129]; [226; 128; 130]; [226; 128; 131];
      [226; 128; 132]; [226; 128; 133]; [226; 128; 134]; [226; 128; 135];
      [226; 128; 136]; [226; 128; 137]; [226; 128; 138];
      [226; 128; 168]; [226; 128; 169];
      [226; 128; 175];
      [226; 129; 159];
      [227; 128; 128];
      [239; 187; 191] ].

(** The number of bytes of the white-space character [s] starts with, 0
    when it starts with none.  No encoding of white space begins with a
    continuation byte, so a match is always at a character boundary. *)
Definition space_length (s : string) : nat :=
  match find (fun w => String.prefix w s) white_space with
  | Some w => String.length w
  | None => 0
  end.

(** [skip] counts the bytes still to drop of a white-space character
    already recognised. *)
Fixpoint trimStart_skip (skip : nat) (s : string) : string :=
  match s with
  | EmptyString => EmptyString
  | String _ s' =>
      match skip with
      | S k => trimStart_skip k s'
      | 0 =>
          match space_length s with
          | 0 => s
          | S k => trimStart_skip k s'
          end
      end
  end.

Definition trimStart (s : string) : string := trimStart_skip 0 s.

(** [trimEnd] keeps a byte as long as what starts there is not white
    space all the way to the end. *)
Fixpoint trimEnd (s : string) : string :=
  match s with
  | String c s' =>
      match trimStart s with
      | EmptyString => EmptyString
      | _ => String c (trimEnd s')
      end
  | EmptyString => EmptyString
  end.

Definition trim (s : string) : string := trimEnd (trimStart s).

(** [s.includes(pat)] *)
Fixpoint includes (pat s : string) : bool :=
  if String.prefix pat s then true
  else match s with
       | String _ s' => includes pat s'
       | EmptyString => false
       end.

(** [s.replace(pat, rep)] with a string pattern: the first occurrence only. *)
Fixpoint replace (pat rep s : string) : string :=
  if String.prefix pat s then rep ++ drop (String.length pat) s
  else match s with
       | String c s' => String c (replace pat rep s')
       | EmptyString => EmptyString
       end.

(** [s.split(/\s+/)]: [cur] is the piece being read, [gap] tells that the
    previous character was already part of a separator, [skip] counts the
    bytes still to pass of a white-space character already recognised. *)
Fixpoint split_spaces_from (skip : nat) (cur : string) (gap : bool) (s : string)
  : list string :=
  match s with
  | EmptyString => [cur]
  | String c s' =>
      match skip with
      | S k => split_spaces_from k cur gap s'
      | 0 =>
          match space_length s with
          | 0 => split_spaces_from 0 (cur ++ String c EmptyString) false s'
          | S k =>
              if gap then split_spaces_from k cur true s'
              else cur :: split_spaces_from k EmptyString true s'
          end
      end
  end.

Definition split_spaces (s : string) : list string :=
  split_spaces_from 0 EmptyString false s.

(** [pieces.join(sep)] *)
Fixpoint join (sep : string) (pieces : list string) : string :=
  match pieces with
  | [] => EmptyString
  | [p] => p
  | p :: rest => p ++ sep ++ join sep rest
  end.

(** [a || b] on strings: the empty string is the only falsy one. *)
Definition or_else (a b : string) : string :=
  match a with
  | EmptyString => b
  | _ => a
  end.

End Js.

(** ** The tree *)

Definition attribs := list (string * string).

Inductive node : Type :=
| Text (data : string)
| Element (tag : string) (attrs : attribs) (children : list node).

Module Dom.

(** [el.attribs[name]] *)
Fixpoint getAttr (name : string) (a : attribs) : option string :=
  match a with
  | [] => None
  | (k, v) :: a' => if String.eqb k name then Some v else getAttr name a'
  end.

(** [el.attribs[name] = value]: an existing key keeps its place, a new key
    goes last. *)
Fixpoint setAttr (name value : string) (a : attribs) : attribs :=
  match a with
  | [] => [(name, value)]
  | (k, v) :: a' =>
      if String.eqb k name then (k, value) :: a'
      else (k, v) :: setAttr name value a'
  end.

(** [$(el).attr(name)] on any node; text nodes have no attributes. *)
Definition attr (name : string) (n : node) : option string :=
  match n with
  | Element _ a _ => getAttr name a
  | Text _ => None
  end.

Definition tagName (n : node) : option string :=
  match n with
  | Element t _ _ => Some t
  | Text _ => None
  end.

Definition isTag (n : node) : bool :=
  match n with
  | Element _ _ _ => true
  | Text _ => false
  end.

Definition childNodes (n : node) : list node :=
  match n with
  | Element _ _ cs => cs
  | Text _ => []
  end.

(** [addClass(value)] of cheerio on one attribute table.  With no class
    yet the pieces of [value] are joined; otherwise each piece missing from
    the padded class string is appended. *)
Definition addClass (value : string) (a : attribs) : attribs :=
  match value with
  | EmptyString => a
  | _ =>
      let classNames := Js.split_spaces value in
      match getAttr "class" a with
      | Some (String c0 cl) =>
          let className := String c0 cl in
          let setClass :=
            fold_left
              (fun acc cn =>
                 if Js.includes (" " ++ cn ++ " ") acc then acc
                 else acc ++ cn ++ " ")
              classNames (" " ++ className ++ " ") in
          setAttr "class" (Js.trim setClass) a
      | _ => setAttr "class" (Js.trim (Js.join " " classNames)) a
      end
  end.

(** [$(n).text()]: the text nodes below [n], concatenated. *)
Fixpoint text (n : node) : string :=
  match n with
  | Text s => s
  | Element _ _ cs =>
      (fix texts (l : list node) : string :=
         match l with
         | [] => EmptyString
         | m :: r => text m ++ texts r
         end) cs
  end.

End Dom.

(** ** Selectors *)

Module Sel.

(** [[name^='p']] *)
Definition attr_starts (name p : string) (n : node) : bool :=
  match Dom.attr name n with
  | Some v => String.prefix p v
  | None => false
  end.

(** [[name='v']] *)
Definition attr_is (name v : string) (n : node) : bool :=
  match Dom.attr name n with
  | Some w => String.eqb w v
  | None => false
  end.

Definition tag_is (t : string) (n : node) : bool :=
  match Dom.tagName n with
  | Some u => String.eqb u t
  | None => false
  end.

(** [div[data-wet='k']] *)
Definition div_wet (k : string) (n : node) : bool :=
  tag_is "div" n && attr_is "data-wet" k n.

(** [div[data-wet^='p']] *)
Definition div_wet_starts (p : string) (n : node) : bool :=
  tag_is "div" n && attr_starts "data-wet" p n.

End Sel.

(** ** Removing a selection from the tree

    [$main.find(sel).remove()] detaches every descendant of the container
    that matches [sel]; what hangs below a detached node leaves with it. *)

Fixpoint remove_in (sel : node -> bool) (n : node) : node :=
  match n with
  | Text s => Text s
  | Element t a cs =>
      Element t a
        ((fix go (l : list node) : list node :=
            match l with
            | [] => []
            | m :: r => if sel m then go r else remove_in sel m :: go r
            end) cs)
  end.

Fixpoint find_remove (sel : node -> bool) (l : list node) : list node :=
  match l with
  | [] => []
  | m :: r => if sel m then find_remove sel r else remove_in sel m :: find_remove sel r
  end.

(** [sel] finds nothing at or below the nodes of [l]. *)
Fixpoint none_in (sel : node -> bool) (n : node) : bool :=
  negb (sel n) &&
  match n with
  | Text _ => true
  | Element _ _ cs =>
      (fix all (l : list node) : bool :=
         match l with
         | [] => true
         | m :: r => none_in sel m && all r
         end) cs
  end.

Fixpoint none_among (sel : node -> bool) (l : list node) : bool :=
  match l with
  | [] => true
  | m :: r => none_in sel m && none_among sel r
  end.

(** ** Elements for building trees

    [el_class] stands for [$("<t/>").addClass(cls)] with children put in
    place by [append], which moves nodes and parses nothing. *)

Definition el_class (t cls : string) (cs : list node) : node :=
  Element t (Dom.addClass cls []) cs.

(** ** Walking a snapshot in document order

    [$(selector).each(f)] fixes the matched nodes first and then calls [f]
    on them in document order, parents before children and a node before
    its later siblings.  The passes written that way recurse on what [f]
    leaves in the document, so they are bounded by the number of nodes. *)

Fixpoint node_size (n : node) : nat :=
  match n with
  | Text _ => 1
  | Element _ _ cs =>
      S ((fix sum (l : list node) : nat :=
            match l with
            | [] => 0
            | m :: r => node_size m + sum r
            end) cs)
  end.

Fixpoint forest_size (l : list node) : nat :=
  match l with
  | [] => 0
  | m :: r => node_size m + forest_size r
  end.

(** [$(n).find(sel).first()] looks below [n]; [first_in] also tries [n]. *)
Fixpoint first_in (sel : node -> bool) (n : node) : option node :=
  if sel n then Some n
  else match n with
       | Text _ => None
       | Element _ _ cs =>
           (fix among (l : list node) : option node :=
              match l with
              | [] => None
              | m :: r =>
                  match first_in sel m with
                  | Some x => Some x
                  | None => among r
                  end
              end) cs
       end.

Fixpoint find_first (sel : node -> bool) (l : list node) : option node :=
  match l with
  | [] => None
  | m :: r =>
      match first_in sel m with
      | Some x => Some x
      | None => find_first sel r
      end
  end.

(** The first member of [l] that [target] accepts is replaced by
    [change] of it; [$m.nextAll(target).first()] on the later siblings. *)
Fixpoint update_first (target : node -> bool) (change : node -> list node)
         (l : list node) : list node :=
  match l with
  | [] => []
  | m :: r => if target m then (change m ++ r)%list else m :: update_first target change r
  end.

(** ** Alerts *)

Definition alert_type (n : node) : option string :=
  if Sel.attr_starts "data-wet" "alert-" n
  then option_map (Js.replace "alert-" EmptyString) (Dom.attr "data-wet" n)
  else None.

Definition alert_section (type : string) (content : list node) : node :=
  el_class "section" ("alert alert-" ++ type) content.

Definition option_nodes (o : option node) : list node :=
  match o with
  | Some x => [x]
  | None => []
  end.

(** A marker is replaced by its section, which takes the first [p] below
    the marker.  What else the marker held is detached with it, and the
    snapshot members there no longer act on the document; the members
    inside the moved paragraph, the paragraph included, are visited in
    their turn. *)
Fixpoint alert_each (fuel : nat) (l : list node) : list node :=
  match fuel with
  | 0 => l
  | S fuel' =>
      map (fun n =>
             match alert_type n with
             | Some type =>
                 alert_section type
                   (alert_each fuel'
                      (option_nodes (find_first (Sel.tag_is "p") (Dom.childNodes n))))
             | None =>
                 match n with
                 | Element t a cs => Element t a (alert_each fuel' cs)
                 | Text s => Text s
                 end
             end) l
  end.

Definition alerts (l : list node) : list node :=
  alert_each (forest_size l) l.

(** ** Markers that annotate a later sibling: tables and lists *)

Section Annotate.

(** The kind of a marker, [None] on any other node. *)
Variable kind_of : node -> option string.
(** What a marker of that kind does to its later siblings. *)
Variable effect : string -> list node -> list node.

(** A marker acts on its later siblings and is removed with all it holds;
    any other element keeps its place and its children are walked. *)
Fixpoint annotate_each (fuel : nat) (l : list node) : list node :=
  match fuel with
  | 0 => l
  | S fuel' =>
      match l with
      | [] => []
      | n :: later =>
          match kind_of n with
          | Some kind => annotate_each fuel' (effect kind later)
          | None =>
              match n with
              | Element t a cs =>
                  Element t a (annotate_each fuel' cs) :: annotate_each fuel' later
              | Text s => Text s :: annotate_each fuel' later
              end
          end
      end
  end.

Definition annotate (l : list node) : list node :=
  annotate_each (forest_size l) l.

End Annotate.

Definition tableClassMap (kind : string) : option string :=
  if kind =? "table-basic" then Some "table"
  else if kind =? "table-striped" then Some "table table-striped"
  else if kind =? "table-bordered" then Some "table table-bordered"
  else if kind =? "table-hover" then Some "table table-hover"
  else if kind =? "table-condensed" then Some "table table-condensed"
  else None.

Definition set_class (cls : string) (n : node) : node :=
  match n with
  | Element t a cs => Element t (Dom.setAttr "class" cls a) cs
  | Text s => Text s
  end.

Definition add_class (cls : string) (n : node) : node :=
  match n with
  | Element t a cs => Element t (Dom.addClass cls a) cs
  | Text s => Text s
  end.

(** [$nextTable.replaceWith($wrap.append($nextTable))] as the parent of the
    marker sees it.  The argument is evaluated first, and [append] moves
    the table under [$wrap]: the table leaves the children of its parent.
    [replaceWith] then works in the parent the table has at that moment,
    which is [$wrap]; the document is not touched again, and neither the
    wrapper nor the table belongs to it afterwards.  The result is what
    stands at the place of the table: nothing.  [Store] below runs the two
    calls on explicit parent links. *)
Definition responsive_wrap (table : node) : list node := [].

Definition table_kind (n : node) : option string :=
  if Sel.attr_starts "data-wet" "table-" n then Dom.attr "data-wet" n else None.

Definition table_effect (kind : string) (later : list node) : list node :=
  if kind =? "table-responsive" then
    update_first (Sel.tag_is "table") responsive_wrap later
  else
    match tableClassMap kind with
    | Some cls => update_first (Sel.tag_is "table") (fun t => [set_class cls t]) later
    | None => later
    end.

Definition tables : list node -> list node := annotate table_kind table_effect.

Definition list_kind (n : node) : option string :=
  if Sel.attr_is "data-wet" "list-inline" n || Sel.attr_is "data-wet" "list-unstyled" n
  then Dom.attr "data-wet" n else None.

Definition is_list (n : node) : bool := Sel.tag_is "ul" n || Sel.tag_is "ol" n.

Definition list_effect (kind : string) (later : list node) : list node :=
  update_first is_list (fun t => [add_class kind t]) later.

Definition lists : list node -> list node := annotate list_kind list_effect.

(** ** The three builders share one outer loop

    [buildDetails], [buildAccordion] and [buildPagination] each take
    [nodes = $main.contents().toArray()] and run

      [while (i < nodes.length) { if (nodes[i] is a start) {...; refresh; i++; continue;} i++; }]

    When [nodes[i]] starts a block, the block is built from [nodes[i+1..]],
    the start is replaced by the new element, the nodes the block used are
    removed, and the snapshot is refreshed: the new element stands at [i]
    and the first node left in place at [i + 1].  [scan] is the loop seen
    from index [i]: its argument is [nodes[i..]], the prefix before [i] is
    never touched again.  [build] returns the new element and the nodes
    left in place after it.  Each turn advances [i], so the number of nodes
    bounds the number of turns. *)

Section Scan.

Variable is_start : node -> bool.
Variable build : node -> list node -> node * list node.

Fixpoint scan (turns : nat) (nodes : list node) : list node :=
  match turns with
  | 0 => nodes
  | S turns' =>
      match nodes with
      | [] => []
      | n :: rest =>
          if is_start n then
            let '(built, rest') := build n rest in
            built :: scan turns' rest'
          else n :: scan turns' rest
      end
  end.

End Scan.

(** ** Inner HTML

    The builders fill a new element with [$("<p/>").html(x.html())]: the
    children of [x] are serialised and the string is parsed again, in the
    context of the new element.  Serialiser and parser belong to cheerio;
    they are parameters here, and nothing is assumed about them. *)

Section Builders.

(** [this._render(children)], the serialisation [$(x).html()] returns for
    the children of [x].  How a text child is written depends on the tag
    of its parent, the first argument; [None] stands for the root. *)
Variable render : option string -> list node -> string.
(** [this._parse(str, options, false, el).children] for an element [el]
    of the given tag. *)
Variable parse : string -> string -> list node.

(** [$(m).html()]: [null] on a node that has no child list.  The [main]
    container only ever has element children, so that case is not reached
    from [transformPlaceholdersToGCWeb]. *)
Definition html (m : node) : option string :=
  match m with
  | Element t _ cs => Some (render (Some t) cs)
  | Text _ => None
  end.

(** The template literal [`${str}`] that [.html(str)] parses. *)
Definition template (str : option string) : string :=
  match str with
  | Some s => s
  | None => "null"
  end.

(** [$("<t/>").html(str)] *)
Definition with_html (t : string) (str : option string) : node :=
  Element t [] (parse t (template str)).

(** ** Details: [buildDetails] *)

(** The inner [while (j < nodes.length && nodes[j] is details-content)]:
    [built] are the children of [$details] so far, the result pairs them
    with [nodes[j..]]. *)
Fixpoint details_collect (built : list node) (l : list node) : list node * list node :=
  match l with
  | m :: l' =>
      if Sel.div_wet "details-content" m
      then details_collect (built ++ [with_html "p" (html m)])%list l'
      else (built, l)
  | [] => (built, [])
  end.

Definition details_build (n : node) (rest : list node) : node * list node :=
  let '(built, rest') := details_collect [with_html "summary" (html n)] rest in
  (Element "details" [] built, rest').

Definition details_loop : nat -> list node -> list node :=
  scan (Sel.div_wet "details-summary") details_build.

Definition buildDetails (main_children : list node) : list node :=
  find_remove (Sel.div_wet "details-content")
    (details_loop (List.length main_children) main_children).

(** ** Accordion: [buildAccordion] *)

(** The children of [$section]: the items already left behind and the one
    [$currentItem] points to, always the last one appended. *)
Definition section_items (closed : list node) (current : option (list node)) : list node :=
  match current with
  | Some cs => (closed ++ [Element "details" [] cs])%list
  | None => closed
  end.

(** The inner [while (j < nodes.length && nodes[j] is not accordion-end)].
    [current] holds the children of [$currentItem] ([None] for [null]);
    the result pairs the children of [$section] with [nodes[j..]].  In the
    last case [$m.html ? $m.html() : $m.text()] always takes [$m.html()],
    a method every cheerio object has. *)
Fixpoint accordion_scope (closed : list node) (current : option (list node))
         (l : list node) : list node * list node :=
  match l with
  | [] => (section_items closed current, [])
  | m :: l' =>
      if Sel.div_wet "accordion-end" m then (section_items closed current, l)
      else if Sel.div_wet "accordion-heading" m then
        accordion_scope (section_items closed current)
          (Some [with_html "summary" (html m)]) l'
      else if Sel.div_wet "accordion-panel" m then
        match current with
        | None =>
            accordion_scope closed
              (Some [Element "summary" [] [Text "Details"]; with_html "p" (html m)]) l'
        | Some cs =>
            accordion_scope closed (Some (cs ++ [with_html "p" (html m)])%list) l'
        end
      else
        match current with
        | Some cs =>
            accordion_scope closed (Some (cs ++ [with_html "p" (html m)])%list) l'
        | None => (section_items closed current, l)
        end
  end.

(** [if (j < nodes.length && nodes[j] is the end marker) nodes[j].remove()] *)
Definition remove_end (k : string) (l : list node) : list node :=
  match l with
  | m :: l' => if Sel.div_wet k m then l' else l
  | [] => []
  end.

Definition accordion_build (n : node) (rest : list node) : node * list node :=
  let '(items, rest') := accordion_scope [] None rest in
  (el_class "section" "wb-accordion" items, remove_end "accordion-end" rest').

Definition accordion_loop : nat -> list node -> list node :=
  scan (Sel.div_wet "accordion-start") accordion_build.

Definition buildAccordion (main_children : list node) : list node :=
  find_remove (Sel.div_wet_starts "accordion-")
    (accordion_loop (List.length main_children) main_children).

(** ** Pagination: [buildPagination] *)

(** [$m.text().trim() || $m.html()]; the markers are elements, on which
    [html()] is a string. *)
Definition page_label (m : node) : string :=
  Js.or_else (Js.trim (Dom.text m)) (render (Dom.tagName m) (Dom.childNodes m)).

Definition page_link (extra : attribs) (label : string) : node :=
  Element "a" (("href", "#") :: extra) [Text label].

(** The entry one interior marker contributes, [None] for any other node. *)
Definition page_entry (m : node) : option node :=
  if Sel.div_wet "pagination-active" m then
    Some (el_class "li" "active"
            [page_link [("aria-current", "page")] (page_label m)])
  else if Sel.div_wet "pagination-disabled" m then
    Some (el_class "li" "disabled" [Element "span" [] [Text (page_label m)]])
  else if Sel.div_wet "pagination-item" m then
    Some (Element "li" [] [page_link [] (page_label m)])
  else None.

(** The inner loop: [entries] are the children of [$ul], the result pairs
    them with [nodes[j..]]. *)
Fixpoint pagination_scope (entries : list node) (l : list node) : list node * list node :=
  match l with
  | [] => (entries, [])
  | m :: l' =>
      if Sel.div_wet "pagination-end" m then (entries, l)
      else match page_entry m with
           | Some e => pagination_scope (entries ++ [e])%list l'
           | None => (entries, l)
           end
  end.

Definition pagination_nav (entries : list node) : node :=
  Element "nav" [("aria-label", "Pagination")]
    [el_class "ul" "pagination" entries].

Definition pagination_build (n : node) (rest : list node) : node * list node :=
  let '(entries, rest') := pagination_scope [] rest in
  (pagination_nav entries, remove_end "pagination-end" rest').

Definition pagination_loop : nat -> list node -> list node :=
  scan (Sel.div_wet "pagination-start") pagination_build.

Definition buildPagination (main_children : list node) : list node :=
  find_remove (Sel.div_wet_starts "pagination-")
    (pagination_loop (List.length main_children) main_children).

End Builders.


(** ** [transformPlaceholdersToGCWeb]

    The argument is the child list of [body] as [cheerio.load] parsed it;
    [$("body").children()] keeps the element children only.  The result is
    the [main] container, the only child of the root when the function
    returns [$.root().html()]. *)

Definition main_attrs : attribs :=
  Dom.addClass "container" (Dom.setAttr "property" "mainContentOfPage" []).

Definition reconstruct (render : option string -> list node -> string)
           (parse : string -> string -> list node)
           (main_children : list node) : list node :=
  lists
    (buildPagination render
       (buildAccordion render parse
          (buildDetails render parse
             (tables
                (alerts main_children))))).

Definition transform_tree (render : option string -> list node -> string)
           (parse : string -> string -> list node) (body : list node) : node :=
  Element "main" main_attrs (reconstruct render parse (filter Dom.isTag body)).

Definition transformPlaceholdersToGCWeb (render : option string -> list node -> string)
           (parse : string -> string -> list node) (body : list node) : string :=
  render None [transform_tree render parse body].

(** ** A serialiser to run examples with

    The program is parametric in the serialiser of cheerio; examples need
    one.  [plain_render] writes a tag with its attributes, the children
    and the closing tag, and text as it is. *)

Definition quote : string := String (ascii_of_nat 34) EmptyString.

Fixpoint render_attrs (a : attribs) : string :=
  match a with
  | [] => EmptyString
  | (k, v) :: a' => " " ++ k ++ "=" ++ quote ++ v ++ quote ++ render_attrs a'
  end.

Fixpoint render_node (n : node) : string :=
  match n with
  | Text s => s
  | Element t a cs =>
      "<" ++ t ++ render_attrs a ++ ">"
      ++ (fix all (l : list node) : string :=
            match l with
            | [] => EmptyString
            | m :: r => render_node m ++ all r
            end) cs
      ++ "</" ++ t ++ ">"
  end.

Definition plain_render (parent : option string) (l : list node) : string :=
  Js.join EmptyString (map render_node l).

(** ** A parser to run examples with

    [plain_parse] reads back what [plain_render] writes: start tags with
    quoted attributes, end tags and text.  It stands in for the parser of
    cheerio in examples whose markup has no element with parsing rules of
    its own. *)

(** The part of [s] before the first [c], and the part after it. *)
Fixpoint break_at (c : ascii) (s : string) : string * option string :=
  match s with
  | EmptyString => (EmptyString, None)
  | String d s' =>
      if Ascii.eqb d c then (EmptyString, Some s')
      else let '(before, after) := break_at c s' in (String d before, after)
  end.

(** The text up to the next tag, and the rest from that tag on. *)
Fixpoint span_text (s : string) : string * string :=
  match s with
  | EmptyString => (EmptyString, EmptyString)
  | String d s' =>
      if Ascii.eqb d "<" then (EmptyString, s)
      else let '(txt, rest) := span_text s' in (String d txt, rest)
  end.

Fixpoint parse_attrs (fuel : nat) (s : string) : attribs :=
  match fuel with
  | 0 => []
  | S fuel' =>
      match break_at "=" (Js.trimStart s) with
      | (key, Some after) =>
          match break_at (ascii_of_nat 34) (Js.drop 1 after) with
          | (value, Some rest) => (key, value) :: parse_attrs fuel' rest
          | (value, None) => [(key, value)]
          end
      | (_, None) => []
      end
  end.

Fixpoint parse_forest (fuel : nat) (s : string) : list node * string :=
  match fuel with
  | 0 => ([], s)
  | S fuel' =>
      match s with
      | EmptyString => ([], EmptyString)
      | String c s1 =>
          if Ascii.eqb c "<" then
            if String.prefix "/" s1 then
              match break_at ">" s1 with
              | (_, Some after) => ([], after)
              | (_, None) => ([], EmptyString)
              end
            else
              let '(head, body) := break_at ">" s1 in
              let '(name, attrs) := break_at " " head in
              let a :=
                match attrs with
                | Some text => parse_attrs (String.length text) text
                | None => []
                end in
              let '(children, s2) :=
                parse_forest fuel' (match body with Some b => b | None => EmptyString end) in
              let '(siblings, s3) := parse_forest fuel' s2 in
              (Element name a children :: siblings, s3)
          else
            let '(txt, rest) := span_text s in
            let '(siblings, s2) := parse_forest fuel' rest in
            (Text txt :: siblings, s2)
      end
  end.

Definition plain_parse (context html : string) : list node :=
  fst (parse_forest (S (String.length html)) html).

(** ** The node store of cheerio, for the calls that move nodes

    domhandler nodes are objects linked by [parent] and [children].  The
    module keeps them in a table indexed by identity and writes [append],
    [replaceWith] and [remove] as cheerio does: all three go through
    [uniqueSplice], which takes a node out of its old parent before it
    enters the new child array. *)

Module Store.

Record cell : Type := {
  shape : string + string * attribs;   (* text data, or tag and attributes *)
  parent : option nat;
  kids : list nat
}.

Definition store := list (nat * cell).

Fixpoint get (st : store) (id : nat) : option cell :=
  match st with
  | [] => None
  | (k, c) :: st' => if (k =? id)%nat then Some c else get st' id
  end.

Fixpoint put (id : nat) (c : cell) (st : store) : store :=
  match st with
  | [] => [(id, c)]
  | (k, c') :: st' => if (k =? id)%nat then (k, c) :: st' else (k, c') :: put id c st'
  end.

Definition set_parent (id : nat) (p : option nat) (st : store) : store :=
  match get st id with
  | Some c => put id {| shape := shape c; parent := p; kids := kids c |} st
  | None => st
  end.

Definition set_kids (id : nat) (ks : list nat) (st : store) : store :=
  match get st id with
  | Some c => put id {| shape := shape c; parent := parent c; kids := ks |} st
  | None => st
  end.

Definition kids_of (st : store) (id : nat) : list nat :=
  match get st id with
  | Some c => kids c
  | None => []
  end.

Definition parent_of (st : store) (id : nat) : option nat :=
  match get st id with
  | Some c => parent c
  | None => None
  end.

(** [array.indexOf(x)] *)
Fixpoint indexOf (x : nat) (l : list nat) : option nat :=
  match l with
  | [] => None
  | y :: r => if (y =? x)%nat then Some 0 else option_map S (indexOf x r)
  end.

(** [array.splice(i, count, x)] *)
Definition splice (i count : nat) (x : nat) (l : list nat) : list nat :=
  (firstn i l ++ x :: skipn (i + count) l)%list.

Definition without (x : nat) (l : list nat) : list nat :=
  filter (fun y => negb (y =? x)%nat) l.

(** [uniqueSplice(parent.children, idx, count, [x], parent)] *)
Definition uniqueSplice (p idx count x : nat) (st : store) : store :=
  let '(st1, idx1) :=
    match parent_of st x with
    | Some old =>
        match indexOf x (kids_of st old) with
        | Some prevIdx =>
            (set_kids old (without x (kids_of st old)) st,
             if ((old =? p) && (prevIdx <? idx))%nat then idx - 1 else idx)
        | None => (st, idx)
        end
    | None => (st, idx)
    end in
  let st2 := set_parent x (Some p) st1 in
  set_kids p (splice idx1 count x (kids_of st2 p)) st2.

(** [$(p).append($(x))] *)
Definition append (p x : nat) (st : store) : store :=
  uniqueSplice p (List.length (kids_of st p)) 0 x st.

(** [removeElement(x)] *)
Definition remove (x : nat) (st : store) : store :=
  match parent_of st x with
  | Some old => set_parent x None (set_kids old (without x (kids_of st old)) st)
  | None => st
  end.

(** [$(old).replaceWith($(x))]: nothing without a parent; otherwise [x] is
    first detached ([update(dom, null)]) and then spliced over [old] in the
    children of the parent [old] has when the call runs. *)
Definition replaceWith (old x : nat) (st : store) : store :=
  match parent_of st old with
  | None => st
  | Some p =>
      let st1 := remove x st in
      match indexOf old (kids_of st1 p) with
      | Some index =>
          let st2 := uniqueSplice p index 1 x st1 in
          if (x =? old)%nat then st2 else set_parent old None st2
      | None => st1
      end
  end.

(** The tree below an identity; [depth] bounds the walk, because child
    arrays can come to contain their own owner. *)
Fixpoint tree_of (depth : nat) (st : store) (id : nat) : option node :=
  match depth with
  | 0 => None
  | S depth' =>
      match get st id with
      | None => None
      | Some c =>
          match shape c with
          | inl data => Some (Text data)
          | inr (t, a) =>
              Some (Element t a
                      (flat_map (fun k => option_nodes (tree_of depth' st k)) (kids c)))
          end
      end
  end.

(** The body of the table [each] callback for a responsive marker whose
    next table is known: [wrap] is the fresh [<div/>] after [addClass]. *)
Definition responsive_callback (marker table wrap : nat) (st : store) : store :=
  remove marker (replaceWith table wrap (append wrap table st)).

(** [main] holding a responsive marker and a table; 3 is [$("<div/>")]
    with its class, still under the fragment root 4 that parsed it. *)
Definition sample : store :=
  [ (0, {| shape := inr ("main", main_attrs); parent := None; kids := [1; 2] |});
    (1, {| shape := inr ("div", [("data-wet", "table-responsive")]);
           parent := Some 0; kids := [] |});
    (2, {| shape := inr ("table", []); parent := Some 0; kids := [] |});
    (3, {| shape := inr ("div", [("class", "table-responsive")]);
           parent := Some 4; kids := [] |});
    (4, {| shape := inr ("root", []); parent := None; kids := [3] |}) ].

End Store.

(** ** The command line: [parseArgs] and [main] *)

Module Cli.

Record args : Type := { input : option string; output : option string }.

(** The [for] loop of [parseArgs] from index [i]: [out] is [args.output]
    ([None] for [null] and [undefined]). *)
Fixpoint parse_from (rest : list string) (out : option string) (positional : list string)
  : option string * list string :=
  match rest with
  | [] => (out, positional)
  | a :: rest' =>
      if (a =? "-o") || (a =? "--output") then
        match rest' with
        | v :: rest'' => parse_from rest'' (Some v) positional
        | [] => (None, positional)
        end
      else parse_from rest' out (positional ++ [a])%list
  end.

(** [x || null] on a string that may be missing. *)
Definition truthy (o : option string) : option string :=
  match o with
  | Some EmptyString => None
  | _ => o
  end.

Definition parseArgs (argv : list string) : args :=
  let '(out, positional) := parse_from (skipn 2 argv) None [] in
  {| input := truthy (hd_error positional); output := out |}.

Definition usage : string :=
  "Usage: node docx_to_gcweb_html_extended.js input.docx -o output.html".

(** What the process does that the outside can see. *)
Inductive event : Type :=
| ConsoleError (line : string)
| ReadFile (path : string)
| Convert
| WriteFile (path data : string)
| StdoutWrite (data : string).

Record outcome : Type := { trace : list event; exit_code : nat }.

Section Main.

Context {buffer message error : Type}.

(** The collaborators: [path.resolve], [fs], mammoth, the loader, the
    serialiser and the fragment parser of cheerio, and how [console.error]
    shows a value. *)
Variable resolve : string -> string.
Variable readFileSync : string -> error + buffer.
Variable convertToHtml : buffer -> error + string * list message.
(** [cheerio.load(html, ...)] followed by the child list of [body]; like
    every call it may throw. *)
Variable load_body : string -> error + list node.
Variable render : option string -> list node -> string.
Variable parse : string -> string -> list node.
Variable writeFileSync : string -> string -> option error.
Variable message_text : message -> string.
Variable error_text : error -> string.

(** A computation logs events and either yields a value or throws. *)
Definition io (A : Type) : Type := list event * (error + A).

Definition ret {A} (x : A) : io A := ([], inr x).

Definition bind {A B} (m : io A) (k : A -> io B) : io B :=
  match m with
  | (t, inl e) => (t, inl e)
  | (t, inr x) => let '(t', r) := k x in ((t ++ t')%list, r)
  end.

Definition emit (e : event) : io unit := ([e], inr tt).

Definition attempt {A} (e : event) (r : error + A) : io A := ([e], r).

Notation "x <- m ;; k" := (bind m (fun x => k))
  (at level 61, m at next level, right associativity).
Notation "m ;;; k" := (bind m (fun _ => k))
  (at level 61, right associativity).

(** The call of [transformPlaceholdersToGCWeb] from the [async] function:
    what it throws rejects the promise. *)
Definition transform (raw : string) : io string :=
  ([], match load_body raw with
       | inl e => inl e
       | inr body => inr (transformPlaceholdersToGCWeb render parse body)
       end).

Definition convertDocxToHtml (inputPath : string) : io (string * list message) :=
  docxBuffer <- attempt (ReadFile inputPath) (readFileSync inputPath) ;;
  result <- attempt Convert (convertToHtml docxBuffer) ;;
  let raw := "<body>" ++ fst result ++ "</body>" in
  finalHtml <- transform raw ;;
  ret (finalHtml, snd result).

Fixpoint log_messages (ms : list message) : io unit :=
  match ms with
  | [] => ret tt
  | m :: ms' => emit (ConsoleError (" - " ++ message_text m)) ;;; log_messages ms'
  end.

(** The body of the [async] function once an input is known. *)
Definition run (a : args) (inp : string) : io unit :=
  r <- convertDocxToHtml (resolve inp) ;;
  (match snd r with
   | [] => ret tt
   | ms => emit (ConsoleError "mammoth messages:") ;;; log_messages ms
   end) ;;;
  match truthy (output a) with
  | Some out =>
      let target := resolve out in
      match writeFileSync target (fst r) with
      | Some e => ([WriteFile target (fst r)], inl e)
      | None => emit (WriteFile target (fst r))
      end
  | None => emit (StdoutWrite (fst r))
  end.

(** [process.exit(2)] ends the process at once; a rejection reaches
    [.catch], which prints the error and exits with 1; otherwise the
    process runs out of work and exits with 0. *)
Definition main (argv : list string) : outcome :=
  let a := parseArgs argv in
  match input a with
  | None => {| trace := [ConsoleError usage]; exit_code := 2 |}
  | Some inp =>
      match run a inp with
      | (t, inl e) => {| trace := (t ++ [ConsoleError (error_text e)])%list; exit_code := 1 |}
      | (t, inr _) => {| trace := t; exit_code := 0 |}
      end
  end.

End Main.

End Cli.


(** ** Vocabulary of the statements *)

(** A selector that reads only the tag and the attributes of a node, as
    every selector of the program does. *)
Definition shallow (sel : node -> bool) : Prop :=
  forall t a cs cs', sel (Element t a cs) = sel (Element t a cs').

(** A selector decided by the tag and the [data-wet] attribute of a
    node, and false where the attribute is missing. *)
Definition reads_marker (sel : node -> bool) : Prop :=
  (forall s, sel (Text s) = false)
  /\ (forall t a cs, Dom.getAttr "data-wet" a = None -> sel (Element t a cs) = false)
  /\ (forall t a a' cs cs',
         Dom.getAttr "data-wet" a = Dom.getAttr "data-wet" a' ->
         sel (Element t a cs) = sel (Element t a' cs')).

(** The selections the passes make for the families other than details. *)
Definition alert_marker : node -> bool := Sel.attr_starts "data-wet" "alert-".
Definition table_marker : node -> bool := Sel.attr_starts "data-wet" "table-".
Definition list_marker (n : node) : bool :=
  Sel.attr_is "data-wet" "list-inline" n || Sel.attr_is "data-wet" "list-unstyled" n.

(** The marker div the style map of the program asks mammoth for. *)
Definition marker (kind : string) (content : list node) : node :=
  Element "div" [("data-wet", kind)] content.

(** The marker vocabulary of the style map. *)
Definition marker_kinds : list string :=
  [ "alert-success"; "alert-info"; "alert-warning"; "alert-danger";
    "table-basic"; "table-striped"; "table-bordered"; "table-hover";
    "table-condensed"; "table-responsive";
    "list-inline"; "list-unstyled";
    "details-summary"; "details-content";
    "accordion-start"; "accordion-heading"; "accordion-panel"; "accordion-end";
    "pagination-start"; "pagination-item"; "pagination-active";
    "pagination-disabled"; "pagination-end" ].

Definition carries_marker (n : node) : bool :=
  match Dom.attr "data-wet" n with
  | Some k => existsb (String.eqb k) marker_kinds
  | None => false
  end.

(** The two spellings of the output option of [parseArgs]. *)
Definition is_flag (a : string) : bool := (a =? "-o") || (a =? "--output").

(** The events by which [main] delivers the document. *)
Definition writes_stdout (e : Cli.event) : bool :=
  match e with
  | Cli.StdoutWrite _ => true
  | _ => false
  end.

Definition writes_file (e : Cli.event) : bool :=
  match e with
  | Cli.WriteFile _ _ => true
  | _ => false
  end.

(** The lines [main] prints for the messages of the converter. *)
Definition warning_events {message : Type} (message_text : message -> string)
           (ms : list message) : list Cli.event :=
  match ms with
  | [] => []
  | _ => Cli.ConsoleError "mammoth messages:"
         :: map (fun m => Cli.ConsoleError (" - " ++ message_text m)) ms
  end.

(** What a new element of tag [t] holds after
    [$("<t/>").html($(m).html())] on an element [m]: the inner HTML of [m]
    parsed again. *)
Definition reparsed (render : option string -> list node -> string)
           (parse : string -> string -> list node) (t : string) (m : node) : list node :=
  parse t (render (Some "div") (Dom.childNodes m)).

(** The nodes of a tree in document order, the node itself first. *)
Fixpoint subtree (n : node) : list node :=
  n :: match n with
       | Text _ => []
       | Element _ _ cs =>
           (fix below (l : list node) : list node :=
              match l with
              | [] => []
              | m :: r => (subtree m ++ below r)%list
              end) cs
       end.

(** The descendants of a node in document order. *)
Definition descendants (n : node) : list node := flat_map subtree (Dom.childNodes n).

(** The longest prefix whose members all pass a test, and what follows it. *)
Fixpoint take_while {A : Type} (p : A -> bool) (l : list A) : list A :=
  match l with
  | x :: r => if p x then x :: take_while p r else []
  | [] => []
  end.

Fixpoint drop_while {A : Type} (p : A -> bool) (l : list A) : list A :=
  match l with
  | x :: r => if p x then drop_while p r else l
  | [] => []
  end.

(** A new child at the end of the last element of a list. *)
Fixpoint append_to_last (child : node) (items : list node) : list node :=
  match items with
  | [] => []
  | [Element t a cs] => [Element t a (cs ++ [child])]
  | i :: r => i :: append_to_last child r
  end.

(** The interior markers of a pagination scope, and the entry the code is
    to make of each: an active entry holds a link marked as the current
    page, a disabled one a span, any other a plain link. *)
Definition pagination_interior (m : node) : bool :=
  Sel.div_wet "pagination-item" m
  || Sel.div_wet "pagination-active" m
  || Sel.div_wet "pagination-disabled" m.

Definition pagination_entry_of (render : option string -> list node -> string) (m : node) : node :=
  let label :=
    match Js.trim (Dom.text m) with
    | EmptyString => render (Some "div") (Dom.childNodes m)
    | trimmed => trimmed
    end in
  if Sel.div_wet "pagination-active" m then
    Element "li" [("class", "active")]
      [Element "a" [("href", "#"); ("aria-current", "page")] [Text label]]
  else if Sel.div_wet "pagination-disabled" m then
    Element "li" [("class", "disabled")] [Element "span" [] [Text label]]
  else Element "li" [] [Element "a" [("href", "#")] [Text label]].

(** The nodes that open an accordion item, and what one more node of an
    open scope does to the items: a heading starts a new item with its
    inner HTML as summary; any other node adds a paragraph of its inner
    HTML to the last item, a first item labelled "Details" being made up
    when there is none. *)
Definition accordion_opens (m : node) : bool :=
  Sel.div_wet "accordion-heading" m || Sel.div_wet "accordion-panel" m.

Definition accordion_item_step (render : option string -> list node -> string)
           (parse : string -> string -> list node)
           (items : list node) (m : node) : list node :=
  let inner :=
    match m with
    | Element t _ cs => render (Some t) cs
    | Text _ => "null"
    end in
  if Sel.div_wet "accordion-heading" m then
    (items ++ [Element "details" [] [Element "summary" [] (parse "summary" inner)]])%list
  else
    match items with
    | [] =>
        [ Element "details" []
            [Element "summary" [] [Text "Details"]; Element "p" [] (parse "p" inner)] ]
    | _ => append_to_last (Element "p" [] (parse "p" inner)) items
    end.

(** The no-break space, U+00A0. *)
Definition nbsp : string := Js.bytes [194; 160].

(** * Properties *)

(** Induction that also gives the hypothesis for every child. *)
Lemma node_forall_ind (P : node -> Prop) :
  (forall s, P (Text s)) ->
  (forall t a cs, Forall P cs -> P (Element t a cs)) ->
  forall n, P n.
Proof.
  intros HT HE.
  fix IH 1.
  intros [s | t a cs].
  - apply HT.
  - apply HE.
    induction cs as [| c cs' IHcs]; constructor.
    + apply IH.
    + exact IHcs.
Qed.


(** ** Selectors *)

Lemma div_wet_decides k k' n :
  Sel.div_wet k n = true -> Sel.div_wet k' n = (k =? k').
Proof.
  unfold Sel.div_wet, Sel.tag_is, Sel.attr_is.
  destruct n as [s | t a cs]; cbn; [discriminate |].
  destruct (t =? "div"); cbn; [| discriminate].
  destruct (Dom.getAttr "data-wet" a) as [w |]; [| discriminate].
  intros H. apply String.eqb_eq in H. now subst w.
Qed.

Lemma div_wet_starts_decides k p n :
  Sel.div_wet k n = true -> Sel.div_wet_starts p n = String.prefix p k.
Proof.
  unfold Sel.div_wet, Sel.div_wet_starts, Sel.tag_is, Sel.attr_is, Sel.attr_starts.
  destruct n as [s | t a cs]; cbn; [discriminate |].
  destruct (t =? "div"); cbn; [| discriminate].
  destruct (Dom.getAttr "data-wet" a) as [w |]; [| discriminate].
  intros H. apply String.eqb_eq in H. now subst w.
Qed.

Lemma div_wet_starts_false p k n :
  Sel.div_wet_starts p n = false -> String.prefix p k = true -> Sel.div_wet k n = false.
Proof.
  intros Hs Hp.
  destruct (Sel.div_wet k n) eqn:E; [| reflexivity].
  rewrite (div_wet_starts_decides k p n E) in Hs. congruence.
Qed.

Lemma shallow_div_wet k : shallow (Sel.div_wet k).
Proof. intros t a cs cs'. reflexivity. Qed.

Lemma shallow_div_wet_starts p : shallow (Sel.div_wet_starts p).
Proof. intros t a cs cs'. reflexivity. Qed.

Lemma shallow_attr_starts name p : shallow (Sel.attr_starts name p).
Proof. intros t a cs cs'. reflexivity. Qed.

Lemma shallow_attr_is name v : shallow (Sel.attr_is name v).
Proof. intros t a cs cs'. reflexivity. Qed.

(** Decide every [div[data-wet=...]] test on a node whose kind is known. *)
Ltac decide_markers :=
  repeat match goal with
         | H : Sel.div_wet ?k ?n = true |- context [Sel.div_wet ?k' ?n] =>
             rewrite (div_wet_decides k k' n H)
         | H : Sel.div_wet ?k ?n = true |- context [Sel.div_wet_starts ?p ?n] =>
             rewrite (div_wet_starts_decides k p n H)
         end.

(** ** Removal of a selection *)

Lemma remove_in_element sel t a cs :
  remove_in sel (Element t a cs) = Element t a (find_remove sel cs).
Proof.
  cbn. f_equal.
  induction cs as [| c cs' IH]; cbn; [reflexivity |].
  now rewrite IH.
Qed.

Lemma none_in_element sel t a cs :
  none_in sel (Element t a cs) = negb (sel (Element t a cs)) && none_among sel cs.
Proof.
  cbn. f_equal.
  induction cs as [| c cs' IH]; cbn; [reflexivity |].
  now rewrite IH.
Qed.

Lemma none_among_app sel l1 l2 :
  none_among sel (l1 ++ l2) = none_among sel l1 && none_among sel l2.
Proof.
  induction l1 as [| m l1' IH]; cbn; [reflexivity |].
  now rewrite IH, andb_assoc.
Qed.

Lemma none_in_not_selected sel n : none_in sel n = true -> sel n = false.
Proof.
  destruct n; cbn; intros H; apply andb_prop in H; destruct H as [H _];
    now apply negb_true_iff in H.
Qed.

Lemma remove_in_id sel n : none_in sel n = true -> remove_in sel n = n.
Proof.
  induction n as [s | t a cs IH] using node_forall_ind; [reflexivity |].
  rewrite none_in_element, remove_in_element. intros H.
  apply andb_prop in H. destruct H as [_ H]. f_equal.
  induction IH as [| c cs' Hc _ IHcs]; [reflexivity |].
  cbn in H |- *. apply andb_prop in H. destruct H as [H1 H2].
  rewrite (none_in_not_selected _ _ H1), (Hc H1), (IHcs H2). reflexivity.
Qed.

Lemma find_remove_id sel l : none_among sel l = true -> find_remove sel l = l.
Proof.
  induction l as [| m r IH]; cbn; [reflexivity |].
  intros H. apply andb_prop in H. destruct H as [H1 H2].
  now rewrite (none_in_not_selected _ _ H1), (remove_in_id _ _ H1), (IH H2).
Qed.

Lemma find_remove_keep sel t a cs r :
  sel (Element t a cs) = false ->
  find_remove sel (Element t a cs :: r)
  = Element t a (find_remove sel cs) :: find_remove sel r.
Proof.
  intros H. cbn [find_remove]. now rewrite H, remove_in_element.
Qed.

Lemma find_remove_drop sel m r :
  sel m = true -> find_remove sel (m :: r) = find_remove sel r.
Proof. intros H. cbn [find_remove]. now rewrite H. Qed.

(** What a sweep leaves holds nothing the selector finds. *)
Lemma find_remove_clean sel :
  shallow sel -> forall l, none_among sel (find_remove sel l) = true.
Proof.
  intros Hsh.
  assert (Hn : forall n, sel n = false -> none_in sel (remove_in sel n) = true).
  { induction n as [s | t a cs IH] using node_forall_ind; intros Hs.
    - cbn. now rewrite Hs.
    - rewrite remove_in_element, none_in_element.
      rewrite (Hsh t a _ cs), Hs. cbn. clear Hs.
      induction IH as [| c cs' Hc _ IHcs]; [reflexivity |].
      cbn [find_remove]. destruct (sel c) eqn:Ec; [exact IHcs |].
      cbn [none_among]. now rewrite (Hc eq_refl), IHcs. }
  induction l as [| m r IH]; [reflexivity |].
  cbn [find_remove]. destruct (sel m) eqn:Em; [exact IH |].
  cbn [none_among]. now rewrite (Hn m Em), IH.
Qed.

(** Push a sweep through the elements a builder has just created. *)
Ltac sweep :=
  repeat first
    [ rewrite find_remove_keep by reflexivity
    | progress cbn [find_remove] ].

(** ** Inner HTML of a marker *)

Lemma div_wet_is_div k m : Sel.div_wet k m = true -> Dom.tagName m = Some "div".
Proof.
  unfold Sel.div_wet, Sel.tag_is. destruct (Dom.tagName m) as [u |]; [| discriminate].
  intros H. apply andb_prop in H. destruct H as [H _].
  apply String.eqb_eq in H. now subst u.
Qed.

Lemma with_html_marker render parse t k m :
  Sel.div_wet k m = true ->
  with_html parse t (html render m)
  = Element t [] (reparsed render parse t m).
Proof.
  intros H. apply div_wet_is_div in H.
  destruct m as [s | tag a cs]; [discriminate |].
  cbn in H. injection H as ->. reflexivity.
Qed.

Lemma with_html_element render parse t tag a cs :
  with_html parse t (html render (Element tag a cs))
  = Element t [] (parse t (render (Some tag) cs)).
Proof. reflexivity. Qed.

(** Replace the new elements of the known markers by their content. *)
Ltac inner_html :=
  repeat match goal with
         | H : Sel.div_wet ?k ?m = true
           |- context [with_html ?p ?t (html ?r ?m)] =>
             rewrite (with_html_marker r p t k m H)
         end.

(** ** Details *)

Lemma details_collect_length render parse built l :
  List.length (snd (details_collect render parse built l)) <= List.length l.
Proof.
  revert built. induction l as [| m l' IH]; intros built; cbn; [lia |].
  destruct (Sel.div_wet "details-content" m); cbn; [| lia].
  specialize (IH (built ++ [with_html parse "p" (html render m)])%list). lia.
Qed.

(** C2, as amended.  For a sequence [summary, content, content, X] in which
    X is not a details marker of either kind and holds no details-content
    marker div, the details pass yields one details element, made of a
    summary that holds the inner HTML of the summary marker and of two
    paragraphs that hold the inner HTML of the two content markers, in
    order, and X unchanged right after it.  The inner HTML is parsed into
    the new element, and the sweep that ends the pass goes over it. *)
Theorem details_pairing render parse s c1 c2 x :
  Sel.div_wet "details-summary" s = true ->
  Sel.div_wet "details-content" c1 = true ->
  Sel.div_wet "details-content" c2 = true ->
  Sel.div_wet "details-summary" x = false ->
  none_in (Sel.div_wet "details-content") x = true ->
  let swept := find_remove (Sel.div_wet "details-content") in
  buildDetails render parse [s; c1; c2; x]
  = [ Element "details" []
        [ Element "summary" [] (swept (parse "summary" (render (Some "div") (Dom.childNodes s))));
          Element "p" [] (swept (parse "p" (render (Some "div") (Dom.childNodes c1))));
          Element "p" [] (swept (parse "p" (render (Some "div") (Dom.childNodes c2)))) ];
      x ].
Proof.
  intros Hs H1 H2 Hx Cx swept.
  pose proof (none_in_not_selected _ _ Cx) as Hx'.
  unfold buildDetails, details_loop.
  cbn [List.length scan]. rewrite Hs.
  unfold details_build. cbn [details_collect].
  rewrite H1, H2, Hx'. cbn [app]. rewrite Hx.
  inner_html. unfold reparsed. sweep.
  now rewrite Hx', (remove_in_id _ x Cx).
Qed.

Lemma details_pairing_witness :
  buildDetails plain_render plain_parse
    [ marker "details-summary" [Text "More"; Element "b" [] [Text "!"]];
      marker "details-content" [Text "one"];
      marker "details-content" [Element "em" [] [Text "two"]];
      Element "p" [] [Text "after"] ]
  = [ Element "details" []
        [ Element "summary" [] [Text "More"; Element "b" [] [Text "!"]];
          Element "p" [] [Text "one"];
          Element "p" [] [Element "em" [] [Text "two"]] ];
      Element "p" [] [Text "after"] ].
Proof.
  exact (details_pairing plain_render plain_parse
           (marker "details-summary" [Text "More"; Element "b" [] [Text "!"]])
           (marker "details-content" [Text "one"])
           (marker "details-content" [Element "em" [] [Text "two"]])
           (Element "p" [] [Text "after"]) eq_refl eq_refl eq_refl eq_refl eq_refl).
Defined.

(** C2 as stated asks only that X is not a details-content marker.  A
    second summary marker is such an X: it is turned into a details
    element of its own, so the output has two and X is not left as it
    was.  So is a block that holds a details-content marker: the final
    sweep empties it. *)
Lemma details_pairing_counterexample :
  let s := marker "details-summary" [Text "First"] in
  let c1 := marker "details-content" [Text "one"] in
  let c2 := marker "details-content" [Text "two"] in
  let x := marker "details-summary" [Text "Second"] in
  let y := Element "blockquote" [] [marker "details-content" [Text "quoted"]] in
  let built :=
    Element "details" []
      [ Element "summary" [] [Text "First"];
        Element "p" [] [Text "one"]; Element "p" [] [Text "two"] ] in
  (Sel.div_wet "details-content" x = false
   /\ buildDetails plain_render plain_parse [s; c1; c2; x]
      = [ built; Element "details" [] [Element "summary" [] [Text "Second"]] ]
   /\ buildDetails plain_render plain_parse [s; c1; c2; x] <> [built; x])
  /\ (Sel.div_wet "details-content" y = false
      /\ buildDetails plain_render plain_parse [s; c1; c2; y]
         = [built; Element "blockquote" [] []]
      /\ buildDetails plain_render plain_parse [s; c1; c2; y] <> [built; y]).
Proof.
  cbv zeta. split; (split; [reflexivity |]; split; [reflexivity |]);
    vm_compute; discriminate.
Qed.

(** ** The outer loop never runs out of turns *)

Lemma scan_turns is_start build :
  (forall n rest, List.length (snd (build n rest)) <= List.length rest) ->
  forall t1 t2 l,
    List.length l <= t1 -> List.length l <= t2 ->
    scan is_start build t1 l = scan is_start build t2 l.
Proof.
  intros Hb.
  induction t1 as [| t1 IH]; intros t2 l H1 H2.
  - destruct l; [| cbn in H1; lia]. destruct t2; reflexivity.
  - destruct t2 as [| t2].
    + destruct l; [reflexivity | cbn in H2; lia].
    + destruct l as [| n rest]; [reflexivity |].
      cbn [scan]. cbn in H1, H2.
      destruct (is_start n).
      * specialize (Hb n rest). destruct (build n rest) as [b rest']. cbn in Hb.
        f_equal. apply IH; lia.
      * f_equal. apply IH; lia.
Qed.

Lemma scan_no_start is_start build turns :
  forall l, forallb (fun n => negb (is_start n)) l = true ->
            scan is_start build turns l = l.
Proof.
  induction turns as [| turns IH]; intros l H; [reflexivity |].
  destruct l as [| n rest]; [reflexivity |].
  cbn in H. apply andb_prop in H. destruct H as [Hn Hr].
  apply negb_true_iff in Hn. cbn [scan]. now rewrite Hn, (IH rest Hr).
Qed.

(** One turn of the outer loop on a start node, with the turns the rest
    of the walk needs. *)
Lemma scan_start is_start build n rest :
  (forall m l, List.length (snd (build m l)) <= List.length l) ->
  is_start n = true ->
  scan is_start build (List.length (n :: rest)) (n :: rest)
  = fst (build n rest)
      :: scan is_start build (List.length (snd (build n rest))) (snd (build n rest)).
Proof.
  intros Hb Hn. cbn [List.length scan]. rewrite Hn.
  pose proof (Hb n rest) as L.
  destruct (build n rest) as [built rest']. cbn [fst snd] in *.
  f_equal. apply (scan_turns _ _ Hb); lia.
Qed.

Lemma scan_other is_start build n rest :
  is_start n = false ->
  scan is_start build (List.length (n :: rest)) (n :: rest)
  = n :: scan is_start build (List.length rest) rest.
Proof. intros Hn. cbn [List.length scan]. now rewrite Hn. Qed.

Lemma scan_keeps is_start build x :
  (forall n rest, In x rest -> In x (snd (build n rest))) ->
  is_start x = false ->
  forall turns l, In x l -> In x (scan is_start build turns l).
Proof.
  intros Hb Hx. induction turns as [| turns IH]; intros l H; [exact H |].
  destruct l as [| n rest]; [exact H |].
  cbn [scan]. destruct H as [-> | H].
  - rewrite Hx. now left.
  - destruct (is_start n).
    + pose proof (Hb n rest H) as K.
      destruct (build n rest) as [built rest']. right. now apply IH.
    + right. now apply IH.
Qed.

Lemma remove_end_length k l : List.length (remove_end k l) <= List.length l.
Proof. destruct l as [| m l']; cbn; [lia |]. destruct (Sel.div_wet k m); cbn; lia. Qed.

Lemma details_build_length render parse n rest :
  List.length (snd (details_build render parse n rest)) <= List.length rest.
Proof.
  unfold details_build.
  pose proof (details_collect_length render parse
                [with_html parse "summary" (html render n)] rest) as H.
  destruct (details_collect render parse _ rest). exact H.
Qed.

Lemma accordion_scope_length render parse closed current l :
  List.length (snd (accordion_scope render parse closed current l)) <= List.length l.
Proof.
  revert closed current.
  induction l as [| m l' IH]; intros closed current; cbn [accordion_scope]; [cbn; lia |].
  destruct (Sel.div_wet "accordion-end" m); [cbn; lia |].
  destruct (Sel.div_wet "accordion-heading" m); [cbn [List.length]; rewrite IH; lia |].
  destruct (Sel.div_wet "accordion-panel" m).
  - destruct current; cbn [List.length]; rewrite IH; lia.
  - destruct current; [cbn [List.length]; rewrite IH; lia | cbn; lia].
Qed.

Lemma accordion_build_length render parse n rest :
  List.length (snd (accordion_build render parse n rest)) <= List.length rest.
Proof.
  unfold accordion_build.
  pose proof (accordion_scope_length render parse [] None rest) as H.
  destruct (accordion_scope render parse [] None rest) as [items rest']. cbn in *.
  pose proof (remove_end_length "accordion-end" rest'). lia.
Qed.

Lemma pagination_scope_length render entries l :
  List.length (snd (pagination_scope render entries l)) <= List.length l.
Proof.
  revert entries.
  induction l as [| m l' IH]; intros entries; cbn [pagination_scope]; [cbn; lia |].
  destruct (Sel.div_wet "pagination-end" m); [cbn; lia |].
  destruct (page_entry render m); [cbn [List.length]; rewrite IH; lia | cbn; lia].
Qed.

Lemma pagination_build_length render n rest :
  List.length (snd (pagination_build render n rest)) <= List.length rest.
Proof.
  unfold pagination_build.
  pose proof (pagination_scope_length render [] rest) as H.
  destruct (pagination_scope render [] rest) as [entries rest']. cbn in *.
  pose proof (remove_end_length "pagination-end" rest'). lia.
Qed.

(** ** Accordion *)

(** C3, as amended.  For [start, heading H1, panel P1, heading H2, panel
    P2, end] the accordion pass yields one section with exactly two items;
    the summary of each item holds the inner HTML of its heading and its
    body is the one paragraph that holds the inner HTML of its panel.  The
    inner HTML is parsed into the new element, and the sweep that ends the
    pass takes the accordion marker divs out of it. *)
Theorem accordion_implicit_close render parse start h1 p1 h2 p2 e :
  Sel.div_wet "accordion-start" start = true ->
  Sel.div_wet "accordion-heading" h1 = true ->
  Sel.div_wet "accordion-panel" p1 = true ->
  Sel.div_wet "accordion-heading" h2 = true ->
  Sel.div_wet "accordion-panel" p2 = true ->
  Sel.div_wet "accordion-end" e = true ->
  let swept := find_remove (Sel.div_wet_starts "accordion-") in
  buildAccordion render parse [start; h1; p1; h2; p2; e]
  = [ Element "section" [("class", "wb-accordion")]
        [ Element "details" []
            [ Element "summary" [] (swept (parse "summary" (render (Some "div") (Dom.childNodes h1))));
              Element "p" [] (swept (parse "p" (render (Some "div") (Dom.childNodes p1)))) ];
          Element "details" []
            [ Element "summary" [] (swept (parse "summary" (render (Some "div") (Dom.childNodes h2))));
              Element "p" [] (swept (parse "p" (render (Some "div") (Dom.childNodes p2)))) ] ] ].
Proof.
  intros Hs Hh1 Hp1 Hh2 Hp2 He swept.
  unfold buildAccordion, accordion_loop.
  cbn [List.length scan]. rewrite Hs.
  unfold accordion_build. cbn [accordion_scope].
  decide_markers. cbn [String.eqb Ascii.eqb Bool.eqb section_items app remove_end].
  decide_markers. cbn [String.eqb Ascii.eqb Bool.eqb].
  inner_html. unfold reparsed, el_class. sweep. reflexivity.
Qed.

Lemma accordion_implicit_close_witness :
  buildAccordion plain_render plain_parse
    [ marker "accordion-start" [];
      marker "accordion-heading" [Text "H1"];
      marker "accordion-panel" [Text "P1 "; Element "em" [] [Text "first"]];
      marker "accordion-heading" [Element "b" [] [Text "H2"]];
      marker "accordion-panel" [Text "P2"];
      marker "accordion-end" [] ]
  = [ Element "section" [("class", "wb-accordion")]
        [ Element "details" []
            [ Element "summary" [] [Text "H1"];
              Element "p" [] [Text "P1 "; Element "em" [] [Text "first"]] ];
          Element "details" []
            [ Element "summary" [] [Element "b" [] [Text "H2"]];
              Element "p" [] [Text "P2"] ] ] ].
Proof.
  exact (accordion_implicit_close plain_render plain_parse
           (marker "accordion-start" []) (marker "accordion-heading" [Text "H1"])
           (marker "accordion-panel" [Text "P1 "; Element "em" [] [Text "first"]])
           (marker "accordion-heading" [Element "b" [] [Text "H2"]])
           (marker "accordion-panel" [Text "P2"]) (marker "accordion-end" [])
           eq_refl eq_refl eq_refl eq_refl eq_refl eq_refl).
Defined.

(** C3 as stated makes each heading's inner content the summary of its
    item.  A heading that holds an accordion marker div does not keep it:
    the sweep that ends the pass removes the div from the summary. *)
Lemma accordion_implicit_close_counterexample :
  let h1 := marker "accordion-heading" [Text "H1"; marker "accordion-panel" [Text "inner"]] in
  buildAccordion plain_render plain_parse
    [ marker "accordion-start" []; h1; marker "accordion-panel" [Text "P1"];
      marker "accordion-heading" [Text "H2"]; marker "accordion-panel" [Text "P2"];
      marker "accordion-end" [] ]
  = [ Element "section" [("class", "wb-accordion")]
        [ Element "details" []
            [ Element "summary" [] [Text "H1"]; Element "p" [] [Text "P1"] ];
          Element "details" []
            [ Element "summary" [] [Text "H2"]; Element "p" [] [Text "P2"] ] ] ]
  /\ [Text "H1"] <> Dom.childNodes h1.
Proof. cbv zeta. split; [reflexivity | discriminate]. Qed.

(** C4, as amended.  [start, panel P1, end] yields one accordion with one
    item whose summary is the text "Details" and whose body is the
    paragraph that holds the inner HTML of P1, parsed into it and swept.
    For [start, X] with X neither a heading, a panel nor an end marker,
    the scope stops at X with nothing consumed; when X is not an
    accordion-family marker div and holds none, X is left unchanged right
    after the (empty) accordion. *)
Theorem accordion_fail_closed render parse start :
  Sel.div_wet "accordion-start" start = true ->
  (forall p1 e,
      Sel.div_wet "accordion-panel" p1 = true ->
      Sel.div_wet "accordion-end" e = true ->
      buildAccordion render parse [start; p1; e]
      = [ Element "section" [("class", "wb-accordion")]
            [ Element "details" []
                [ Element "summary" [] [Text "Details"];
                  Element "p" []
                    (find_remove (Sel.div_wet_starts "accordion-")
                       (parse "p" (render (Some "div") (Dom.childNodes p1)))) ] ] ])
  /\ (forall x rest,
         Sel.div_wet "accordion-heading" x = false ->
         Sel.div_wet "accordion-panel" x = false ->
         Sel.div_wet "accordion-end" x = false ->
         accordion_scope render parse [] None (x :: rest) = ([], x :: rest))
  /\ (forall x,
         none_in (Sel.div_wet_starts "accordion-") x = true ->
         buildAccordion render parse [start; x]
         = [Element "section" [("class", "wb-accordion")] []; x]).
Proof.
  intros Hs. split; [| split].
  - intros p1 e Hp He.
    unfold buildAccordion, accordion_loop.
    cbn [List.length scan]. rewrite Hs.
    unfold accordion_build. cbn [accordion_scope].
    decide_markers. cbn [String.eqb Ascii.eqb Bool.eqb section_items app remove_end].
    decide_markers. cbn [String.eqb Ascii.eqb Bool.eqb].
    inner_html. unfold reparsed, el_class. sweep. reflexivity.
  - intros x rest Hh Hp He. cbn [accordion_scope]. now rewrite He, Hh, Hp.
  - intros x Hx.
    pose proof (none_in_not_selected _ _ Hx) as Hn.
    unfold buildAccordion, accordion_loop.
    cbn [List.length scan]. rewrite Hs.
    unfold accordion_build. cbn [accordion_scope].
    rewrite (div_wet_starts_false "accordion-" "accordion-end" x Hn eq_refl).
    rewrite (div_wet_starts_false "accordion-" "accordion-heading" x Hn eq_refl).
    rewrite (div_wet_starts_false "accordion-" "accordion-panel" x Hn eq_refl).
    cbn [section_items remove_end].
    rewrite (div_wet_starts_false "accordion-" "accordion-end" x Hn eq_refl).
    rewrite (div_wet_starts_false "accordion-" "accordion-start" x Hn eq_refl).
    unfold el_class. sweep. now rewrite Hn, (remove_in_id _ _ Hx).
Qed.

Lemma accordion_fail_closed_witness :
  buildAccordion plain_render plain_parse
    [ marker "accordion-start" [];
      marker "accordion-panel" [Text "P1 "; Element "em" [] [Text "only"]];
      marker "accordion-end" [] ]
  = [ Element "section" [("class", "wb-accordion")]
        [ Element "details" []
            [ Element "summary" [] [Text "Details"];
              Element "p" [] [Text "P1 "; Element "em" [] [Text "only"]] ] ] ]
  /\ accordion_scope plain_render plain_parse [] None
       [Element "p" [] [Text "plain"]; marker "accordion-end" []]
     = ([], [Element "p" [] [Text "plain"]; marker "accordion-end" []])
  /\ buildAccordion plain_render plain_parse
       [marker "accordion-start" []; Element "p" [] [Text "plain"]]
     = [Element "section" [("class", "wb-accordion")] []; Element "p" [] [Text "plain"]].
Proof.
  pose proof (accordion_fail_closed plain_render plain_parse
                (marker "accordion-start" []) eq_refl) as [A [B C]].
  split; [exact (A (marker "accordion-panel" [Text "P1 "; Element "em" [] [Text "only"]])
                   (marker "accordion-end" []) eq_refl eq_refl) |].
  split; [exact (B (Element "p" [] [Text "plain"]) [marker "accordion-end" []]
                   eq_refl eq_refl eq_refl) |].
  exact (C (Element "p" [] [Text "plain"]) eq_refl).
Defined.

(** C4 as stated lets X be anything but a heading or a panel.  An
    accordion-end marker is such an X: it closes the scope and is removed,
    so it does not remain a sibling.  A block that holds an accordion
    marker stays, but not as it was: the final sweep empties it. *)
Lemma accordion_fail_closed_counterexample :
  let start := marker "accordion-start" [] in
  let x := marker "accordion-end" [] in
  let y := Element "blockquote" [] [marker "accordion-panel" [Text "quoted"]] in
  (Sel.div_wet "accordion-heading" x = false
   /\ Sel.div_wet "accordion-panel" x = false
   /\ buildAccordion plain_render plain_parse [start; x]
      = [Element "section" [("class", "wb-accordion")] []]
   /\ ~ In x (buildAccordion plain_render plain_parse [start; x]))
  /\ (Sel.div_wet "accordion-heading" y = false
      /\ Sel.div_wet "accordion-panel" y = false
      /\ buildAccordion plain_render plain_parse [start; y]
         = [Element "section" [("class", "wb-accordion")] []; Element "blockquote" [] []]
      /\ ~ In y (buildAccordion plain_render plain_parse [start; y])).
Proof.
  cbv zeta. split; repeat (split; [reflexivity |]); vm_compute.
  - intros [H | []]. discriminate H.
  - intros [H | [H | []]]; discriminate H.
Qed.

(** ** Pagination *)

Lemma page_label_rule render k m :
  Sel.div_wet k m = true ->
  page_label render m
  = match Js.trim (Dom.text m) with
    | EmptyString => render (Some "div") (Dom.childNodes m)
    | label => label
    end.
Proof.
  intros H. unfold page_label, Js.or_else. rewrite (div_wet_is_div k m H).
  now destruct (Js.trim (Dom.text m)).
Qed.

(** C5.  For [start, item, active, disabled, end] the pagination pass
    yields one navigation list with three entries in order: a plain link,
    a link marked as the current page inside an active entry, and a span
    (no link) inside a disabled entry.  Each label is the trimmed text of
    its marker, or the serialised inner content when that text is empty. *)
Theorem pagination_labeling render start item active disabled e :
  Sel.div_wet "pagination-start" start = true ->
  Sel.div_wet "pagination-item" item = true ->
  Sel.div_wet "pagination-active" active = true ->
  Sel.div_wet "pagination-disabled" disabled = true ->
  Sel.div_wet "pagination-end" e = true ->
  let label m :=
    match Js.trim (Dom.text m) with
    | EmptyString => render (Some "div") (Dom.childNodes m)
    | trimmed => trimmed
    end in
  buildPagination render [start; item; active; disabled; e]
  = [ Element "nav" [("aria-label", "Pagination")]
        [ Element "ul" [("class", "pagination")]
            [ Element "li" []
                [Element "a" [("href", "#")] [Text (label item)]];
              Element "li" [("class", "active")]
                [Element "a" [("href", "#"); ("aria-current", "page")]
                   [Text (label active)]];
              Element "li" [("class", "disabled")]
                [Element "span" [] [Text (label disabled)]] ] ] ].
Proof.
  intros Hs Hi Ha Hd He label.
  unfold buildPagination, pagination_loop.
  cbn [List.length scan]. rewrite Hs.
  unfold pagination_build. cbn [pagination_scope]. unfold page_entry.
  decide_markers. cbn [String.eqb Ascii.eqb Bool.eqb app remove_end].
  decide_markers. cbn [String.eqb Ascii.eqb Bool.eqb].
  rewrite (page_label_rule render _ item Hi), (page_label_rule render _ active Ha),
    (page_label_rule render _ disabled Hd).
  unfold pagination_nav, page_link, el_class. sweep.
  reflexivity.
Qed.

Lemma pagination_labeling_witness :
  buildPagination plain_render
    [ marker "pagination-start" []; marker "pagination-item" [Text "1"];
      marker "pagination-active" [Text (nbsp ++ "2" ++ nbsp)];
      marker "pagination-disabled" [Text nbsp; Element "b" [] []];
      marker "pagination-end" [] ]
  = [ Element "nav" [("aria-label", "Pagination")]
        [ Element "ul" [("class", "pagination")]
            [ Element "li" [] [Element "a" [("href", "#")] [Text "1"]];
              Element "li" [("class", "active")]
                [Element "a" [("href", "#"); ("aria-current", "page")] [Text "2"]];
              Element "li" [("class", "disabled")]
                [Element "span" [] [Text (plain_render (Some "div") [Text nbsp; Element "b" [] []])]] ] ] ].
Proof.
  exact (pagination_labeling plain_render
           (marker "pagination-start" []) (marker "pagination-item" [Text "1"])
           (marker "pagination-active" [Text (nbsp ++ "2" ++ nbsp)])
           (marker "pagination-disabled" [Text nbsp; Element "b" [] []])
           (marker "pagination-end" []) eq_refl eq_refl eq_refl eq_refl eq_refl).
Defined.

(** ** Scopes without an end marker *)

Lemma drop_while_Forall {A : Type} (P : A -> Prop) (p : A -> bool) (l : list A) :
  Forall P l -> Forall P (drop_while p l).
Proof.
  induction 1 as [| x r Hx Hr IH]; cbn; [constructor |].
  destruct (p x); [exact IH | now constructor].
Qed.

Lemma remove_end_absent k l :
  Forall (fun m => Sel.div_wet k m = false) l -> remove_end k l = l.
Proof. intros [| m r Hm _]; cbn; [reflexivity | now rewrite Hm]. Qed.

Lemma page_entry_interior render m :
  page_entry render m
  = if pagination_interior m then Some (pagination_entry_of render m) else None.
Proof.
  unfold page_entry, pagination_interior, pagination_entry_of, page_link, el_class.
  destruct (Sel.div_wet "pagination-active" m) eqn:A.
  - rewrite orb_true_r. cbn [orb]. now rewrite (page_label_rule render _ m A).
  - destruct (Sel.div_wet "pagination-disabled" m) eqn:D.
    + rewrite orb_true_r. now rewrite (page_label_rule render _ m D).
    + destruct (Sel.div_wet "pagination-item" m) eqn:I; cbn [orb];
        [now rewrite (page_label_rule render _ m I) | reflexivity].
Qed.

Lemma pagination_scope_run render l :
  Forall (fun m => Sel.div_wet "pagination-end" m = false) l ->
  forall entries,
    pagination_scope render entries l
    = ((entries ++ map (pagination_entry_of render) (take_while pagination_interior l))%list,
       drop_while pagination_interior l).
Proof.
  induction 1 as [| m l' Hm _ IH]; intros entries.
  - cbn. now rewrite app_nil_r.
  - cbn [pagination_scope take_while drop_while]. rewrite Hm, page_entry_interior.
    destruct (pagination_interior m).
    + rewrite IH, <- app_assoc. reflexivity.
    + cbn. now rewrite app_nil_r.
Qed.

Lemma pagination_entries_swept render l :
  find_remove (Sel.div_wet_starts "pagination-") (map (pagination_entry_of render) l)
  = map (pagination_entry_of render) l.
Proof.
  induction l as [| m r IH]; [reflexivity |].
  cbn [map]. unfold pagination_entry_of at 1 3.
  destruct (Sel.div_wet "pagination-active" m);
    [| destruct (Sel.div_wet "pagination-disabled" m)];
    sweep; now rewrite IH.
Qed.

Lemma append_to_last_snoc child front t a cs :
  append_to_last child (front ++ [Element t a cs])
  = (front ++ [Element t a (cs ++ [child])])%list.
Proof.
  induction front as [| i r IH]; [reflexivity |].
  cbn [app append_to_last]. rewrite IH.
  destruct (r ++ [Element t a cs])%list eqn:E; [now destruct r |].
  now destruct i.
Qed.

Lemma accordion_step_open render parse closed cs m :
  Sel.div_wet "accordion-heading" m = false ->
  accordion_item_step render parse (closed ++ [Element "details" [] cs]) m
  = (closed ++ [Element "details" []
                  (cs ++ [with_html parse "p" (html render m)])])%list.
Proof.
  intros Hh. unfold accordion_item_step. rewrite Hh.
  rewrite <- append_to_last_snoc.
  destruct (closed ++ [Element "details" [] cs])%list eqn:E; [now destruct closed |].
  now destruct m.
Qed.

Lemma accordion_scope_run render parse l :
  Forall (fun m => Sel.div_wet "accordion-end" m = false) l ->
  forall closed cs,
    accordion_scope render parse closed (Some cs) l
    = (fold_left (accordion_item_step render parse) l
         (closed ++ [Element "details" [] cs])%list, []).
Proof.
  induction 1 as [| m l' Hm _ IH]; intros closed cs; [reflexivity |].
  cbn [accordion_scope fold_left]. rewrite Hm.
  destruct (Sel.div_wet "accordion-heading" m) eqn:Hh.
  - rewrite IH. cbn [section_items]. do 2 f_equal.
    unfold accordion_item_step. rewrite Hh. now destruct m.
  - rewrite (accordion_step_open render parse closed cs m Hh).
    destruct (Sel.div_wet "accordion-panel" m); now rewrite IH.
Qed.

(** C10.  With no end marker among the later siblings of a start marker:
    an accordion scope whose first node opens an item runs to the end of
    the siblings, and the section built from all of them, node by node,
    takes the place of the start marker; a scope whose first node opens no
    item stops there, the empty section takes the place of the start
    marker and every sibling stays.  A pagination scope takes the longest
    run of interior markers, the navigation list with one entry for each
    takes the place of the start marker and the siblings after the run
    stay.  In each case the nodes left go on to the outer loop as they
    are: none is removed as an end marker. *)
Theorem missing_end_marker :
  (forall render parse start rest,
      Sel.div_wet "accordion-start" start = true ->
      Forall (fun m => Sel.div_wet "accordion-end" m = false) rest ->
      let swept := find_remove (Sel.div_wet_starts "accordion-") in
      let items := fold_left (accordion_item_step render parse) rest [] in
      (existsb accordion_opens (firstn 1 rest) = true ->
       accordion_build render parse start rest
       = (Element "section" [("class", "wb-accordion")] items, [])
       /\ buildAccordion render parse (start :: rest)
          = [Element "section" [("class", "wb-accordion")] (swept items)])
      /\ (existsb accordion_opens (firstn 1 rest) = false ->
          accordion_build render parse start rest
          = (Element "section" [("class", "wb-accordion")] [], rest)
          /\ buildAccordion render parse (start :: rest)
             = Element "section" [("class", "wb-accordion")] []
                 :: buildAccordion render parse rest))
  /\ (forall render start rest,
         Sel.div_wet "pagination-start" start = true ->
         Forall (fun m => Sel.div_wet "pagination-end" m = false) rest ->
         let nav :=
           Element "nav" [("aria-label", "Pagination")]
             [ Element "ul" [("class", "pagination")]
                 (map (pagination_entry_of render)
                    (take_while pagination_interior rest)) ] in
         pagination_build render start rest = (nav, drop_while pagination_interior rest)
         /\ buildPagination render (start :: rest)
            = nav :: buildPagination render (drop_while pagination_interior rest)).
Proof.
  split.
  - intros render parse start rest Hs Hrest swept items.
    assert (Open : existsb accordion_opens (firstn 1 rest) = true ->
                   accordion_scope render parse [] None rest = (items, [])).
    { subst items. destruct Hrest as [| m l' Hm Hl']; [discriminate |].
      cbn [firstn existsb]. rewrite orb_false_r. unfold accordion_opens. intros Ho.
      cbn [accordion_scope fold_left]. rewrite Hm.
      destruct (Sel.div_wet "accordion-heading" m) eqn:Hh.
      - rewrite (accordion_scope_run render parse l' Hl' [] _). cbn [section_items app].
        do 2 f_equal. unfold accordion_item_step. rewrite Hh. now destruct m.
      - cbn [orb] in Ho. rewrite Ho.
        rewrite (accordion_scope_run render parse l' Hl' [] _). cbn [app].
        do 2 f_equal. unfold accordion_item_step. rewrite Hh. now destruct m. }
    assert (Shut : existsb accordion_opens (firstn 1 rest) = false ->
                   accordion_scope render parse [] None rest = ([], rest)).
    { destruct Hrest as [| m l' Hm Hl']; [reflexivity |].
      cbn [firstn existsb]. rewrite orb_false_r. unfold accordion_opens. intros Ho.
      apply orb_false_iff in Ho. destruct Ho as [Hh Hp].
      cbn [accordion_scope]. now rewrite Hm, Hh, Hp. }
    split; intros Ho.
    + assert (B : accordion_build render parse start rest
                  = (Element "section" [("class", "wb-accordion")] items, []))
        by (unfold accordion_build; now rewrite (Open Ho)).
      split; [exact B |].
      unfold buildAccordion, accordion_loop.
      rewrite (scan_start _ _ start rest (accordion_build_length render parse) Hs), B.
      cbn [fst snd List.length scan]. sweep. reflexivity.
    + assert (B : accordion_build render parse start rest
                  = (Element "section" [("class", "wb-accordion")] [], rest)).
      { unfold accordion_build. rewrite (Shut Ho).
        now rewrite (remove_end_absent _ _ Hrest). }
      split; [exact B |].
      unfold buildAccordion, accordion_loop.
      rewrite (scan_start _ _ start rest (accordion_build_length render parse) Hs), B.
      cbn [fst snd]. sweep. reflexivity.
  - intros render start rest Hs Hrest nav.
    assert (B : pagination_build render start rest
                = (nav, drop_while pagination_interior rest)).
    { unfold pagination_build. rewrite (pagination_scope_run render rest Hrest []).
      cbn [app].
      now rewrite (remove_end_absent _ _ (drop_while_Forall _ pagination_interior _ Hrest)). }
    split; [exact B |].
    unfold buildPagination, pagination_loop.
    rewrite (scan_start _ _ start rest (pagination_build_length render) Hs), B.
    cbn [fst snd]. subst nav. sweep.
    now rewrite pagination_entries_swept.
Qed.

Lemma missing_end_marker_witness :
  (buildAccordion plain_render plain_parse
     [ marker "accordion-start" []; marker "accordion-heading" [Text "H"];
       marker "accordion-panel" [Text "P"]; Element "ul" [] [Element "li" [] [Text "a"]];
       marker "accordion-heading" [Text "H2"] ]
   = [ Element "section" [("class", "wb-accordion")]
         [ Element "details" []
             [ Element "summary" [] [Text "H"]; Element "p" [] [Text "P"];
               Element "p" [] [Element "li" [] [Text "a"]] ];
           Element "details" [] [Element "summary" [] [Text "H2"]] ] ])
  /\ (buildAccordion plain_render plain_parse
        [ marker "accordion-start" []; Element "p" [] [Text "stop"];
          Element "p" [] [Text "more"] ]
      = [ Element "section" [("class", "wb-accordion")] [];
          Element "p" [] [Text "stop"]; Element "p" [] [Text "more"] ])
  /\ (buildPagination plain_render
        [ marker "pagination-start" []; marker "pagination-item" [Text "1"];
          marker "pagination-active" [Text "2"]; Element "p" [] [Text "stop"];
          Element "p" [] [Text "more"] ]
      = [ Element "nav" [("aria-label", "Pagination")]
            [ Element "ul" [("class", "pagination")]
                [ Element "li" [] [Element "a" [("href", "#")] [Text "1"]];
                  Element "li" [("class", "active")]
                    [Element "a" [("href", "#"); ("aria-current", "page")] [Text "2"]] ] ];
          Element "p" [] [Text "stop"]; Element "p" [] [Text "more"] ]).
Proof.
  split; [| split].
  - refine (proj2 (proj1 (proj1 missing_end_marker plain_render plain_parse
                            (marker "accordion-start" [])
                            [ marker "accordion-heading" [Text "H"];
                              marker "accordion-panel" [Text "P"];
                              Element "ul" [] [Element "li" [] [Text "a"]];
                              marker "accordion-heading" [Text "H2"] ]
                            eq_refl _) eq_refl)).
    repeat constructor.
  - refine (proj2 (proj2 (proj1 missing_end_marker plain_render plain_parse
                            (marker "accordion-start" [])
                            [Element "p" [] [Text "stop"]; Element "p" [] [Text "more"]]
                            eq_refl _) eq_refl)).
    repeat constructor.
  - refine (proj2 (proj2 missing_end_marker plain_render
                     (marker "pagination-start" [])
                     [ marker "pagination-item" [Text "1"];
                       marker "pagination-active" [Text "2"];
                       Element "p" [] [Text "stop"]; Element "p" [] [Text "more"] ]
                     eq_refl _)).
    repeat constructor.
Defined.

(** ** Sizes and the walks bounded by them *)

Lemma node_size_element t a cs : node_size (Element t a cs) = S (forest_size cs).
Proof. reflexivity. Qed.

Lemma node_size_pos n : 1 <= node_size n.
Proof. destruct n; [cbn; lia | rewrite node_size_element; lia]. Qed.

Lemma forest_size_app l1 l2 : forest_size (l1 ++ l2) = forest_size l1 + forest_size l2.
Proof. induction l1 as [| m l1' IH]; cbn; [reflexivity | rewrite IH; lia]. Qed.

Lemma forest_size_zero l : forest_size l <= 0 -> l = [].
Proof.
  destruct l as [| m r]; [reflexivity |]. cbn. pose proof (node_size_pos m). lia.
Qed.

Lemma forest_size_in n l : In n l -> node_size n <= forest_size l.
Proof.
  induction l as [| m r IH]; cbn; [tauto |].
  intros [-> | H]; [lia | specialize (IH H); lia].
Qed.

Lemma childNodes_size n : forest_size (Dom.childNodes n) < node_size n.
Proof. destruct n; [cbn; lia | rewrite node_size_element; cbn; lia]. Qed.

Lemma first_in_element sel t a cs :
  first_in sel (Element t a cs)
  = if sel (Element t a cs) then Some (Element t a cs) else find_first sel cs.
Proof.
  cbn. destruct (sel (Element t a cs)); [reflexivity |].
  induction cs as [| c cs' IH]; cbn; [reflexivity |].
  destruct (first_in sel c); [reflexivity | exact IH].
Qed.

Lemma first_in_size sel n x : first_in sel n = Some x -> node_size x <= node_size n.
Proof.
  revert x. induction n as [s | t a cs IH] using node_forall_ind; intros x.
  - cbn. destruct (sel (Text s)); [intros [= <-]; cbn; lia | discriminate].
  - rewrite first_in_element, node_size_element.
    destruct (sel (Element t a cs)); [intros [= <-]; rewrite node_size_element; lia |].
    induction IH as [| c cs' Hc _ IHcs]; cbn; [discriminate |].
    destruct (first_in sel c) as [y |] eqn:E.
    + intros [= <-]. specialize (Hc y eq_refl). lia.
    + intros H. specialize (IHcs H). lia.
Qed.

Lemma find_first_size sel l :
  forest_size (option_nodes (find_first sel l)) <= forest_size l.
Proof.
  induction l as [| m r IH]; cbn; [lia |].
  destruct (first_in sel m) as [y |] eqn:E.
  - apply first_in_size in E. cbn. lia.
  - lia.
Qed.

(** ** Alerts *)

Lemma alert_each_fuel f1 :
  forall f2 l,
    forest_size l <= f1 -> forest_size l <= f2 ->
    alert_each f1 l = alert_each f2 l.
Proof.
  induction f1 as [| f1 IH]; intros f2 l H1 H2.
  - apply forest_size_zero in H1. subst l. destruct f2; reflexivity.
  - destruct f2 as [| f2].
    + apply forest_size_zero in H2. subst l. reflexivity.
    + cbn [alert_each]. apply map_ext_in. intros n Hn.
      apply forest_size_in in Hn.
      pose proof (childNodes_size n) as Hc.
      destruct (alert_type n).
      * f_equal. pose proof (find_first_size (Sel.tag_is "p") (Dom.childNodes n)).
        apply IH; lia.
      * destruct n as [s | t a cs]; [reflexivity |]. cbn [Dom.childNodes] in Hc.
        f_equal. apply IH; lia.
Qed.

Lemma alert_each_app f l1 l2 :
  alert_each f (l1 ++ l2) = (alert_each f l1 ++ alert_each f l2)%list.
Proof. destruct f; cbn [alert_each]; [reflexivity | apply map_app]. Qed.

Lemma alerts_app l1 l2 : alerts (l1 ++ l2) = (alerts l1 ++ alerts l2)%list.
Proof.
  unfold alerts. rewrite alert_each_app, forest_size_app.
  f_equal; apply alert_each_fuel; lia.
Qed.

Lemma alerts_marker n type :
  alert_type n = Some type ->
  alerts [n]
  = [alert_section type
       (alerts (option_nodes (find_first (Sel.tag_is "p") (Dom.childNodes n))))].
Proof.
  intros H. unfold alerts at 1.
  pose proof (node_size_pos n) as Hp.
  pose proof (childNodes_size n) as Hc.
  pose proof (find_first_size (Sel.tag_is "p") (Dom.childNodes n)) as Hf.
  cbn [forest_size]. destruct (node_size n + 0) as [| f] eqn:E; [lia |].
  cbn [alert_each map]. rewrite H. do 2 f_equal.
  apply alert_each_fuel; lia.
Qed.

Lemma alerts_element t a cs :
  alert_type (Element t a cs) = None ->
  alerts [Element t a cs] = [Element t a (alerts cs)].
Proof.
  intros H. unfold alerts at 1. cbn [forest_size]. rewrite node_size_element.
  cbn [Nat.add alert_each map]. rewrite H. do 2 f_equal.
  apply alert_each_fuel; lia.
Qed.

Lemma alert_type_none n :
  alert_type n = None -> Sel.attr_starts "data-wet" "alert-" n = false.
Proof.
  unfold alert_type, Sel.attr_starts.
  destruct (Dom.attr "data-wet" n) as [v |]; [| reflexivity].
  destruct (String.prefix "alert-" v); [discriminate | reflexivity].
Qed.

Lemma alert_type_some n type :
  alert_type n = Some type -> Sel.attr_starts "data-wet" "alert-" n = true.
Proof.
  unfold alert_type. destruct (Sel.attr_starts "data-wet" "alert-" n); [reflexivity | discriminate].
Qed.

Lemma addClass_no_data_wet cls : Dom.getAttr "data-wet" (Dom.addClass cls []) = None.
Proof. destruct cls; reflexivity. Qed.

Lemma alert_each_clean f :
  forall l, forest_size l <= f ->
            none_among (Sel.attr_starts "data-wet" "alert-") (alert_each f l) = true.
Proof.
  induction f as [| f IH]; intros l H.
  - apply forest_size_zero in H. now subst l.
  - cbn [alert_each].
    induction l as [| n r IHr]; [reflexivity |].
    cbn [map none_among]. cbn [forest_size] in H.
    pose proof (node_size_pos n) as Hp.
    pose proof (childNodes_size n) as Hc.
    rewrite IHr by lia. rewrite andb_true_r.
    destruct (alert_type n) as [type |] eqn:E.
    + unfold alert_section, el_class. rewrite none_in_element.
      pose proof (find_first_size (Sel.tag_is "p") (Dom.childNodes n)) as Hf.
      rewrite IH by lia.
      unfold Sel.attr_starts. cbn [Dom.attr]. now rewrite addClass_no_data_wet.
    + apply alert_type_none in E.
      destruct n as [s | t a cs]; [reflexivity |].
      rewrite none_in_element. cbn [Dom.childNodes] in Hc. rewrite IH by lia.
      rewrite (shallow_attr_starts "data-wet" "alert-" t a _ cs), E. reflexivity.
Qed.

Lemma alert_each_id f :
  forall l, none_among (Sel.attr_starts "data-wet" "alert-") l = true ->
            alert_each f l = l.
Proof.
  induction f as [| f IH]; intros l H; [reflexivity |].
  cbn [alert_each].
  induction l as [| n r IHr]; [reflexivity |].
  cbn [none_among] in H. apply andb_prop in H. destruct H as [Hn Hr].
  cbn [map]. rewrite (IHr Hr). f_equal.
  pose proof (none_in_not_selected _ _ Hn) as Hs.
  destruct (alert_type n) as [type |] eqn:E.
  - apply alert_type_some in E. congruence.
  - destruct n as [s | t a cs]; [reflexivity |].
    rewrite none_in_element in Hn. apply andb_prop in Hn. destruct Hn as [_ Hn].
    now rewrite (IH cs Hn).
Qed.

Lemma prefix_append p s : String.prefix p (p ++ s) = true.
Proof.
  induction p as [| c p' IH]; cbn.
  - now destruct s.
  - destruct (ascii_dec c c); [exact IH | congruence].
Qed.

Lemma drop_append p s : Js.drop (String.length p) (p ++ s) = s.
Proof. induction p as [| c p' IH]; cbn; [now destruct s | exact IH]. Qed.

Lemma replace_prefix p s : Js.replace p EmptyString (p ++ s) = s.
Proof.
  assert (E : forall s0, Js.replace p EmptyString s0
                         = if String.prefix p s0
                           then EmptyString ++ Js.drop (String.length p) s0
                           else match s0 with
                                | String c s' => String c (Js.replace p EmptyString s')
                                | EmptyString => EmptyString
                                end)
    by (intros [| c s0]; reflexivity).
  rewrite E, prefix_append, drop_append. reflexivity.
Qed.

Lemma alert_type_of_kind n kind :
  Dom.attr "data-wet" n = Some ("alert-" ++ kind) -> alert_type n = Some kind.
Proof.
  intros H. unfold alert_type, Sel.attr_starts. rewrite H.
  rewrite prefix_append. cbn [option_map]. now rewrite replace_prefix.
Qed.

Lemma alerts_cons n l : alerts (n :: l) = (alerts [n] ++ alerts l)%list.
Proof. exact (alerts_app [n] l). Qed.

Lemma subtree_element t a cs :
  subtree (Element t a cs) = Element t a cs :: flat_map subtree cs.
Proof.
  reflexivity.
Qed.

Lemma find_app {A : Type} (p : A -> bool) (l1 l2 : list A) :
  find p (l1 ++ l2)%list
  = match find p l1 with
    | Some x => Some x
    | None => find p l2
    end.
Proof.
  induction l1 as [| x r IH]; [reflexivity |].
  cbn. destruct (p x); [reflexivity | exact IH].
Qed.

Lemma first_in_subtree sel n : first_in sel n = find sel (subtree n).
Proof.
  induction n as [s | t a cs IH] using node_forall_ind.
  - cbn. now destruct (sel (Text s)).
  - rewrite first_in_element, subtree_element. cbn [find].
    destruct (sel (Element t a cs)); [reflexivity |].
    induction IH as [| c cs' Hc _ IHcs]; [reflexivity |].
    cbn [find_first flat_map]. rewrite find_app, Hc.
    destruct (find sel (subtree c)); [reflexivity | exact IHcs].
Qed.

(** The first node below [n] that a selector accepts is the first such
    node among the descendants of [n] in document order. *)
Lemma find_first_descendants sel n :
  find_first sel (Dom.childNodes n) = find sel (descendants n).
Proof.
  unfold descendants.
  induction (Dom.childNodes n) as [| c cs IH]; [reflexivity |].
  cbn [find_first flat_map]. rewrite find_app, first_in_subtree.
  destruct (find sel (subtree c)); [reflexivity | exact IH].
Qed.

(** C7.  The alert pass in full.  A node whose marker attribute is
    [alert-<kind>] is replaced, at its place among its siblings, by a
    section whose only child is the first paragraph, in document order,
    among the descendants of the marker, itself treated by the pass; the
    section is empty when no paragraph is below the marker; its class is
    [alert alert-<kind>] for the four kinds.  The rest of what the marker
    held is dropped with it.  An element without an alert marker stays with
    its children treated by the pass, and a text node stays, so a marker is
    reached at any depth below elements that are not alert markers.  A
    tree without alert markers is unchanged, and no node with an alert
    marker is left after the pass. *)
Theorem alert_wrapping :
  (forall before n after kind,
      Dom.attr "data-wet" n = Some ("alert-" ++ kind) ->
      let content := option_nodes (find (Sel.tag_is "p") (descendants n)) in
      alerts (before ++ n :: after)
      = (alerts before
           ++ Element "section" (Dom.addClass ("alert alert-" ++ kind)%string []) (alerts content)
           :: alerts after)%list
      /\ (In kind ["success"; "info"; "warning"; "danger"] ->
          alerts (before ++ n :: after)
          = (alerts before
               ++ Element "section" [("class", ("alert alert-" ++ kind)%string)] (alerts content)
               :: alerts after)%list))
  /\ (forall before t a cs after,
         alert_marker (Element t a cs) = false ->
         alerts (before ++ Element t a cs :: after)
         = (alerts before ++ Element t a (alerts cs) :: alerts after)%list)
  /\ (forall before s after,
         alerts (before ++ Text s :: after)
         = (alerts before ++ Text s :: alerts after)%list)
  /\ (forall l, none_among alert_marker l = true -> alerts l = l)
  /\ (forall l, none_among alert_marker (alerts l) = true).
Proof.
  split; [| split; [| split; [| split]]].
  - intros before n after kind H content.
    assert (E : alerts (before ++ n :: after)
                = (alerts before
                     ++ Element "section" (Dom.addClass ("alert alert-" ++ kind)%string [])
                          (alerts content)
                     :: alerts after)%list).
    { rewrite alerts_app, (alerts_cons n after),
        (alerts_marker n kind (alert_type_of_kind n kind H)).
      subst content. now rewrite find_first_descendants. }
    split; [exact E |].
    intros Hk. rewrite E. cbn in Hk.
    destruct Hk as [<- | [<- | [<- | [<- | []]]]]; reflexivity.
  - intros before t a cs after H.
    rewrite alerts_app, (alerts_cons (Element t a cs) after), alerts_element; [reflexivity |].
    unfold alert_type. unfold alert_marker in H. now rewrite H.
  - intros before s after. now rewrite alerts_app, (alerts_cons (Text s) after).
  - intros l H. now apply alert_each_id.
  - intros l. apply alert_each_clean. lia.
Qed.

Lemma alert_wrapping_witness :
  alerts [ Element "p" [] [Text "before"];
           marker "alert-warning"
             [ Element "span" [] [Text "note"];
               Element "blockquote" [] [Element "p" [] [Text "Careful"]];
               Element "p" [] [Text "second"] ];
           Element "p" [] [Text "after"] ]
  = [ Element "p" [] [Text "before"];
      Element "section" [("class", "alert alert-warning")]
        [Element "p" [] [Text "Careful"]];
      Element "p" [] [Text "after"] ].
Proof.
  exact (proj2 (proj1 alert_wrapping [Element "p" [] [Text "before"]]
                  (marker "alert-warning"
                     [ Element "span" [] [Text "note"];
                       Element "blockquote" [] [Element "p" [] [Text "Careful"]];
                       Element "p" [] [Text "second"] ])
                  [Element "p" [] [Text "after"]] "warning" eq_refl)
           (or_intror (or_intror (or_introl eq_refl)))).
Defined.

(** An alert marker below another one gets no section of its own: of the
    outer marker only the first paragraph is kept, whether the inner marker
    holds that paragraph or stands next to it. *)
Lemma alert_wrapping_counterexample :
  let danger := Sel.attr_is "class" "alert alert-danger" in
  let around := marker "alert-info" [marker "alert-danger" [Element "p" [] [Text "x"]]] in
  let beside :=
    marker "alert-info"
      [Element "p" [] [Text "x"]; marker "alert-danger" [Element "p" [] [Text "y"]]] in
  alerts [around]
  = [Element "section" [("class", "alert alert-info")] [Element "p" [] [Text "x"]]]
  /\ none_among danger (alerts [around]) = true
  /\ alerts [beside]
     = [Element "section" [("class", "alert alert-info")] [Element "p" [] [Text "x"]]]
  /\ none_among danger (alerts [beside]) = true.
Proof. cbv zeta. split; [| split; [| split]]; reflexivity. Qed.

(** ** Markers that annotate a later sibling *)

Lemma update_first_size target change l :
  (forall m, forest_size (change m) <= node_size m) ->
  forest_size (update_first target change l) <= forest_size l.
Proof.
  intros Hc. induction l as [| m r IH]; cbn; [lia |].
  destruct (target m).
  - rewrite forest_size_app. specialize (Hc m). lia.
  - cbn. lia.
Qed.

Lemma update_first_none target change l :
  forallb (fun m => negb (target m)) l = true -> update_first target change l = l.
Proof.
  induction l as [| m r IH]; cbn; [reflexivity |].
  intros H. apply andb_prop in H. destruct H as [Hm Hr].
  apply negb_true_iff in Hm. now rewrite Hm, (IH Hr).
Qed.

Lemma update_first_found target change pre t post :
  forallb (fun m => negb (target m)) pre = true ->
  target t = true ->
  update_first target change (pre ++ t :: post) = (pre ++ change t ++ post)%list.
Proof.
  intros Hpre Ht. induction pre as [| m r IH]; cbn.
  - now rewrite Ht.
  - cbn in Hpre. apply andb_prop in Hpre. destruct Hpre as [Hm Hr].
    apply negb_true_iff in Hm. now rewrite Hm, (IH Hr).
Qed.

Section AnnotateFacts.

Variable kind_of : node -> option string.
Variable effect : string -> list node -> list node.

Hypothesis kind_shallow :
  forall t a cs cs', kind_of (Element t a cs) = kind_of (Element t a cs').
Hypothesis effect_size :
  forall k l, forest_size (effect k l) <= forest_size l.

Let is_marker (n : node) : bool :=
  match kind_of n with
  | Some _ => true
  | None => false
  end.

Lemma annotate_each_fuel f1 :
  forall f2 l,
    forest_size l <= f1 -> forest_size l <= f2 ->
    annotate_each kind_of effect f1 l = annotate_each kind_of effect f2 l.
Proof.
  induction f1 as [| f1 IH]; intros f2 l H1 H2.
  - apply forest_size_zero in H1. subst l. destruct f2; reflexivity.
  - destruct f2 as [| f2].
    + apply forest_size_zero in H2. subst l. reflexivity.
    + destruct l as [| n later]; [reflexivity |].
      cbn [annotate_each]. cbn [forest_size] in H1, H2.
      pose proof (node_size_pos n) as Hp.
      destruct (kind_of n) as [k |].
      * pose proof (effect_size k later). apply IH; lia.
      * destruct n as [s | t a cs].
        -- f_equal. apply IH; lia.
        -- rewrite node_size_element in H1, H2.
           f_equal; [f_equal |]; apply IH; lia.
Qed.

Lemma annotate_marker n k later :
  kind_of n = Some k ->
  annotate kind_of effect (n :: later) = annotate kind_of effect (effect k later).
Proof.
  intros H. unfold annotate. cbn [forest_size].
  pose proof (node_size_pos n) as Hp.
  destruct (node_size n + forest_size later) as [| f] eqn:E; [lia |].
  cbn [annotate_each]. rewrite H.
  pose proof (effect_size k later). apply annotate_each_fuel; lia.
Qed.

Lemma annotate_element t a cs later :
  kind_of (Element t a cs) = None ->
  annotate kind_of effect (Element t a cs :: later)
  = Element t a (annotate kind_of effect cs) :: annotate kind_of effect later.
Proof.
  intros H. unfold annotate. cbn [forest_size]. rewrite node_size_element.
  cbn [Nat.add annotate_each]. rewrite H.
  f_equal; [f_equal |]; apply annotate_each_fuel; lia.
Qed.

Lemma annotate_text s later :
  kind_of (Text s) = None ->
  annotate kind_of effect (Text s :: later) = Text s :: annotate kind_of effect later.
Proof.
  intros H. unfold annotate. cbn [forest_size node_size Nat.add annotate_each].
  now rewrite H.
Qed.

(** Every marker of the snapshot is gone from the result. *)
Lemma annotate_each_clean f :
  forall l, forest_size l <= f ->
            none_among is_marker (annotate_each kind_of effect f l) = true.
Proof.
  induction f as [| f IH]; intros l H.
  - apply forest_size_zero in H. now subst l.
  - destruct l as [| n later]; [reflexivity |].
    cbn [annotate_each]. cbn [forest_size] in H.
    pose proof (node_size_pos n) as Hp.
    destruct (kind_of n) as [k |] eqn:E.
    + pose proof (effect_size k later). apply IH. lia.
    + destruct n as [s | t a cs]; cbn [none_among].
      * rewrite IH by lia. cbn. unfold is_marker. now rewrite E.
      * rewrite node_size_element in H.
        rewrite none_in_element, !IH by lia.
        unfold is_marker. now rewrite (kind_shallow t a _ cs), E.
Qed.

(** Without markers nothing happens. *)
Lemma annotate_each_id f :
  forall l, none_among is_marker l = true -> annotate_each kind_of effect f l = l.
Proof.
  induction f as [| f IH]; intros l H; [reflexivity |].
  destruct l as [| n later]; [reflexivity |].
  cbn [none_among] in H. apply andb_prop in H. destruct H as [Hn Hl].
  pose proof (none_in_not_selected _ _ Hn) as Hs. unfold is_marker in Hs.
  cbn [annotate_each].
  destruct (kind_of n); [discriminate |].
  destruct n as [s | t a cs].
  - now rewrite (IH later Hl).
  - rewrite none_in_element in Hn. apply andb_prop in Hn. destruct Hn as [_ Hn].
    now rewrite (IH cs Hn), (IH later Hl).
Qed.

Lemma annotate_idempotent l :
  annotate kind_of effect (annotate kind_of effect l) = annotate kind_of effect l.
Proof.
  unfold annotate at 1. apply annotate_each_id.
  apply annotate_each_clean. lia.
Qed.

End AnnotateFacts.

(** ** Tables and lists *)

Lemma table_kind_shallow t a cs cs' :
  table_kind (Element t a cs) = table_kind (Element t a cs').
Proof. reflexivity. Qed.

Lemma list_kind_shallow t a cs cs' :
  list_kind (Element t a cs) = list_kind (Element t a cs').
Proof. reflexivity. Qed.

Lemma set_class_size cls n : node_size (set_class cls n) = node_size n.
Proof. destruct n; reflexivity. Qed.

Lemma add_class_size cls n : node_size (add_class cls n) = node_size n.
Proof. destruct n; reflexivity. Qed.

Lemma table_effect_size k l : forest_size (table_effect k l) <= forest_size l.
Proof.
  unfold table_effect. destruct (k =? "table-responsive").
  - apply update_first_size. intros m. cbn. lia.
  - destruct (tableClassMap k); [| lia].
    apply update_first_size. intros m. cbn. rewrite set_class_size. lia.
Qed.

Lemma list_effect_size k l : forest_size (list_effect k l) <= forest_size l.
Proof.
  apply update_first_size. intros m. cbn. rewrite add_class_size. lia.
Qed.

Lemma class_kind_not_responsive kind cls :
  tableClassMap kind = Some cls -> (kind =? "table-responsive") = false.
Proof.
  intros H. destruct (kind =? "table-responsive") eqn:E; [| reflexivity].
  apply String.eqb_eq in E. subst kind. discriminate H.
Qed.

(** A table marker of a class kind sets the class of the first table among
    its later siblings, however far, and is removed. *)
Lemma table_marker_class m kind cls pre t post :
  table_kind m = Some kind ->
  tableClassMap kind = Some cls ->
  forallb (fun x => negb (Sel.tag_is "table" x)) pre = true ->
  Sel.tag_is "table" t = true ->
  tables (m :: pre ++ t :: post) = tables (pre ++ set_class cls t :: post).
Proof.
  intros Hm Hc Hpre Ht. unfold tables.
  rewrite (annotate_marker _ _ table_effect_size m kind _ Hm).
  unfold table_effect. rewrite (class_kind_not_responsive kind cls Hc), Hc.
  now rewrite update_first_found.
Qed.

(** A list marker adds its kind to the class of the first list among its
    later siblings and is removed. *)
Lemma list_marker_class m kind pre t post :
  list_kind m = Some kind ->
  forallb (fun x => negb (is_list x)) pre = true ->
  is_list t = true ->
  lists (m :: pre ++ t :: post) = lists (pre ++ add_class kind t :: post).
Proof.
  intros Hm Hpre Ht. unfold lists.
  rewrite (annotate_marker _ _ list_effect_size m kind _ Hm).
  unfold list_effect. now rewrite update_first_found.
Qed.

(** Without a target among the later siblings the marker is removed and
    nothing else changes. *)
Lemma table_marker_no_target m kind later :
  table_kind m = Some kind ->
  forallb (fun x => negb (Sel.tag_is "table" x)) later = true ->
  tables (m :: later) = tables later.
Proof.
  intros Hm Hl. unfold tables.
  rewrite (annotate_marker _ _ table_effect_size m kind _ Hm).
  unfold table_effect.
  destruct (kind =? "table-responsive"); [now rewrite update_first_none |].
  destruct (tableClassMap kind); [now rewrite update_first_none | reflexivity].
Qed.

Lemma list_marker_no_target m kind later :
  list_kind m = Some kind ->
  forallb (fun x => negb (is_list x)) later = true ->
  lists (m :: later) = lists later.
Proof.
  intros Hm Hl. unfold lists.
  rewrite (annotate_marker _ _ list_effect_size m kind _ Hm).
  unfold list_effect. now rewrite update_first_none.
Qed.

(** A responsive marker takes the first table among its later siblings
    out of the document and puts nothing in its place. *)
Lemma table_marker_responsive m pre t post :
  table_kind m = Some "table-responsive" ->
  forallb (fun x => negb (Sel.tag_is "table" x)) pre = true ->
  Sel.tag_is "table" t = true ->
  tables (m :: pre ++ t :: post) = tables (pre ++ post).
Proof.
  intros Hm Hpre Ht. unfold tables.
  rewrite (annotate_marker _ _ table_effect_size m _ _ Hm).
  unfold table_effect. cbn [String.eqb Ascii.eqb Bool.eqb].
  now rewrite update_first_found.
Qed.

Lemma tables_idempotent l : tables (tables l) = tables l.
Proof. apply annotate_idempotent; [exact table_kind_shallow | exact table_effect_size]. Qed.

(** C6 at its failing input.  A responsive marker followed by a table:
    the pass leaves [main] empty, with neither a wrapper nor the table.
    The same run on the node store shows where they went: the wrapper has
    become its own child and the table has no parent. *)
Theorem table_responsive_loses_table :
  let input := [marker "table-responsive" []; Element "table" [] []] in
  let after := Store.responsive_callback 1 2 3 Store.sample in
  tables input = []
  /\ Store.tree_of 2 Store.sample 0 = Some (Element "main" main_attrs input)
  /\ Store.tree_of 2 after 0 = Some (Element "main" main_attrs (tables input))
  /\ Store.kids_of after 3 = [3]
  /\ Store.parent_of after 2 = None.
Proof. cbv zeta. repeat split; reflexivity. Qed.

(** C8 at its failing input.  The first run over a responsive marker and a
    table yields no wrapper holding the table: it yields nothing.  Running
    the pass again changes nothing, on this and on every input. *)
Theorem table_responsive_twice :
  let table := Element "table" [] [Element "tr" [] [Element "td" [] [Text "cell"]]] in
  let input := [marker "table-responsive" []; table] in
  tables input = []
  /\ tables input <> [Element "div" [("class", "table-responsive")] [table]]
  /\ forall l, tables (tables l) = tables l.
Proof.
  cbv zeta. split; [reflexivity |]. split; [discriminate |].
  exact tables_idempotent.
Qed.

(** ** The command line *)

Section CliFacts.

Context {buffer message error : Type}.
Variable resolve : string -> string.
Variable readFileSync : string -> error + buffer.
Variable convertToHtml : buffer -> error + string * list message.
Variable load_body : string -> error + list node.
Variable render : option string -> list node -> string.
Variable parse : string -> string -> list node.
Variable writeFileSync : string -> string -> option error.
Variable message_text : message -> string.
Variable error_text : error -> string.

Let run_main :=
  Cli.main resolve readFileSync convertToHtml load_body render parse writeFileSync
    message_text error_text.

(** The lines the warnings of the converter take on the error stream. *)
Let warning_lines (ms : list message) : list Cli.event :=
  match ms with
  | [] => []
  | _ => Cli.ConsoleError "mammoth messages:"
         :: map (fun m => Cli.ConsoleError (" - " ++ message_text m)) ms
  end.

Lemma log_messages_lines (ms : list message) :
  Cli.log_messages (error := error) message_text ms
  = (map (fun m => Cli.ConsoleError (" - " ++ message_text m)) ms, inr tt).
Proof.
  induction ms as [| m ms' IH]; [reflexivity |].
  cbn [Cli.log_messages map]. rewrite IH. reflexivity.
Qed.

Lemma parseArgs_no_arguments argv :
  skipn 2 argv = [] -> Cli.input (Cli.parseArgs argv) = None.
Proof. intros H. unfold Cli.parseArgs. now rewrite H. Qed.

(** C9.  Without an input path the process prints the usage line and
    exits with 2, and that is all it does: nothing is read or converted.
    When reading throws, when converting throws, or when the
    reconstruction throws, the error is printed after the events up to
    there and the exit status is 1; nothing is written.  Otherwise the
    warnings go to the error stream, one per line after their heading, the
    document written is the reconstruction of the converted value
    whatever the warnings are, and the status is 0, or 1 with the error
    printed when writing the file throws. *)
Theorem exit_code_contract argv :
  let a := Cli.parseArgs argv in
  (Cli.input a = None ->
   run_main argv = {| Cli.trace := [Cli.ConsoleError Cli.usage]; Cli.exit_code := 2 |})
  /\ (skipn 2 argv = [] -> Cli.input a = None)
  /\ (forall inp e,
         Cli.input a = Some inp ->
         readFileSync (resolve inp) = inl e ->
         run_main argv
         = {| Cli.trace := [Cli.ReadFile (resolve inp); Cli.ConsoleError (error_text e)];
              Cli.exit_code := 1 |})
  /\ (forall inp buf e,
         Cli.input a = Some inp ->
         readFileSync (resolve inp) = inr buf ->
         convertToHtml buf = inl e ->
         run_main argv
         = {| Cli.trace := [Cli.ReadFile (resolve inp); Cli.Convert;
                            Cli.ConsoleError (error_text e)];
              Cli.exit_code := 1 |})
  /\ (forall inp buf value messages e,
         Cli.input a = Some inp ->
         readFileSync (resolve inp) = inr buf ->
         convertToHtml buf = inr (value, messages) ->
         load_body ("<body>" ++ value ++ "</body>") = inl e ->
         run_main argv
         = {| Cli.trace := [Cli.ReadFile (resolve inp); Cli.Convert;
                            Cli.ConsoleError (error_text e)];
              Cli.exit_code := 1 |})
  /\ (forall inp buf value messages body,
         Cli.input a = Some inp ->
         readFileSync (resolve inp) = inr buf ->
         convertToHtml buf = inr (value, messages) ->
         load_body ("<body>" ++ value ++ "</body>") = inr body ->
         let html := transformPlaceholdersToGCWeb render parse body in
         match Cli.truthy (Cli.output a) with
         | Some out =>
             match writeFileSync (resolve out) html with
             | None =>
                 run_main argv
                 = {| Cli.trace :=
                        ([Cli.ReadFile (resolve inp); Cli.Convert]
                           ++ warning_lines messages
                           ++ [Cli.WriteFile (resolve out) html])%list;
                      Cli.exit_code := 0 |}
             | Some e =>
                 run_main argv
                 = {| Cli.trace :=
                        ([Cli.ReadFile (resolve inp); Cli.Convert]
                           ++ warning_lines messages
                           ++ [Cli.WriteFile (resolve out) html;
                               Cli.ConsoleError (error_text e)])%list;
                      Cli.exit_code := 1 |}
             end
         | None =>
             run_main argv
             = {| Cli.trace :=
                    ([Cli.ReadFile (resolve inp); Cli.Convert]
                       ++ warning_lines messages
                       ++ [Cli.StdoutWrite html])%list;
                  Cli.exit_code := 0 |}
         end).
Proof.
  intros a. subst run_main. unfold Cli.main. fold a.
  split; [| split; [| split; [| split; [| split]]]].
  - intros ->. reflexivity.
  - apply parseArgs_no_arguments.
  - intros inp e -> Hr.
    unfold Cli.run, Cli.convertDocxToHtml, Cli.attempt, Cli.bind. now rewrite Hr.
  - intros inp buf e -> Hr Hc.
    unfold Cli.run, Cli.convertDocxToHtml, Cli.attempt, Cli.bind. now rewrite Hr, Hc.
  - intros inp buf value messages e -> Hr Hc Hl.
    unfold Cli.run, Cli.convertDocxToHtml, Cli.transform, Cli.attempt, Cli.bind.
    rewrite Hr, Hc. cbn [fst snd]. now rewrite Hl.
  - intros inp buf value messages body -> Hr Hc Hl.
    unfold Cli.run, Cli.convertDocxToHtml, Cli.transform, Cli.attempt, Cli.bind,
      Cli.ret, Cli.emit.
    rewrite Hr, Hc. cbn [fst snd]. rewrite Hl. cbn [fst snd app].
    destruct (Cli.truthy (Cli.output a)) as [out |];
      [destruct (writeFileSync (resolve out) _) as [e |] |];
      (destruct messages as [| m ms];
       [reflexivity
       | rewrite log_messages_lines; cbn [app warning_lines];
         rewrite <- ?app_assoc; reflexivity]).
Qed.

End CliFacts.

Lemma exit_code_contract_witness :
  let read := fun p : string =>
    if p =? "missing.docx" then @inl string string "ENOENT"
    else if p =? "corrupt.docx" then inr "corrupt"
    else if p =? "odd.docx" then inr "odd"
    else inr "bytes" in
  let convert := fun b : string =>
    if b =? "corrupt" then @inl string (string * list string) "not a zip file"
    else if b =? "odd" then inr ("<odd>", [])
    else inr ("<p>Hi</p>", ["style"; "font"]) in
  let load := fun raw : string =>
    if raw =? "<body><odd></body>" then @inl string (list node) "cannot load"
    else inr (plain_parse "body" (Js.drop 6 raw)) in
  let write := fun path _ : string =>
    if path =? "locked.html" then Some "EACCES" else None in
  let run :=
    Cli.main (fun p => p) read convert load plain_render plain_parse write
      (fun m => m) (fun e => e) in
  let document :=
    "<main property=" ++ quote ++ "mainContentOfPage" ++ quote
      ++ " class=" ++ quote ++ "container" ++ quote ++ "><p>Hi</p></main>" in
  run ["node"; "convert.js"]
  = {| Cli.trace := [Cli.ConsoleError Cli.usage]; Cli.exit_code := 2 |}
  /\ run ["node"; "convert.js"; "missing.docx"]
     = {| Cli.trace := [Cli.ReadFile "missing.docx"; Cli.ConsoleError "ENOENT"];
          Cli.exit_code := 1 |}
  /\ run ["node"; "convert.js"; "corrupt.docx"]
     = {| Cli.trace := [Cli.ReadFile "corrupt.docx"; Cli.Convert;
                        Cli.ConsoleError "not a zip file"];
          Cli.exit_code := 1 |}
  /\ run ["node"; "convert.js"; "odd.docx"; "-o"; "out.html"]
     = {| Cli.trace := [Cli.ReadFile "odd.docx"; Cli.Convert;
                        Cli.ConsoleError "cannot load"];
          Cli.exit_code := 1 |}
  /\ run ["node"; "convert.js"; "in.docx"; "-o"; "out.html"]
     = {| Cli.trace :=
            [ Cli.ReadFile "in.docx"; Cli.Convert;
              Cli.ConsoleError "mammoth messages:"; Cli.ConsoleError " - style";
              Cli.ConsoleError " - font"; Cli.WriteFile "out.html" document ];
          Cli.exit_code := 0 |}
  /\ run ["node"; "convert.js"; "in.docx"; "-o"; "locked.html"]
     = {| Cli.trace :=
            [ Cli.ReadFile "in.docx"; Cli.Convert;
              Cli.ConsoleError "mammoth messages:"; Cli.ConsoleError " - style";
              Cli.ConsoleError " - font"; Cli.WriteFile "locked.html" document;
              Cli.ConsoleError "EACCES" ];
          Cli.exit_code := 1 |}
  /\ run ["node"; "convert.js"; "in.docx"]
     = {| Cli.trace :=
            [ Cli.ReadFile "in.docx"; Cli.Convert;
              Cli.ConsoleError "mammoth messages:"; Cli.ConsoleError " - style";
              Cli.ConsoleError " - font"; Cli.StdoutWrite document ];
          Cli.exit_code := 0 |}.
Proof.
  intros read convert load write run document.
  pose (contract := exit_code_contract (fun p => p) read convert load plain_render
                      plain_parse write (fun m => m) (fun e => e)).
  split; [| split; [| split; [| split; [| split; [| split]]]]].
  - exact (proj1 (contract ["node"; "convert.js"]) eq_refl).
  - exact (proj1 (proj2 (proj2 (contract ["node"; "convert.js"; "missing.docx"])))
             "missing.docx" "ENOENT" eq_refl eq_refl).
  - exact (proj1 (proj2 (proj2 (proj2 (contract ["node"; "convert.js"; "corrupt.docx"]))))
             "corrupt.docx" "corrupt" "not a zip file" eq_refl eq_refl eq_refl).
  - exact (proj1 (proj2 (proj2 (proj2 (proj2
             (contract ["node"; "convert.js"; "odd.docx"; "-o"; "out.html"])))))
             "odd.docx" "odd" "<odd>" [] "cannot load" eq_refl eq_refl eq_refl eq_refl).
  - exact (proj2 (proj2 (proj2 (proj2 (proj2
             (contract ["node"; "convert.js"; "in.docx"; "-o"; "out.html"])))))
             "in.docx" "bytes" "<p>Hi</p>" ["style"; "font"]
             [Element "p" [] [Text "Hi"]] eq_refl eq_refl eq_refl eq_refl).
  - exact (proj2 (proj2 (proj2 (proj2 (proj2
             (contract ["node"; "convert.js"; "in.docx"; "-o"; "locked.html"])))))
             "in.docx" "bytes" "<p>Hi</p>" ["style"; "font"]
             [Element "p" [] [Text "Hi"]] eq_refl eq_refl eq_refl eq_refl).
  - exact (proj2 (proj2 (proj2 (proj2 (proj2
             (contract ["node"; "convert.js"; "in.docx"])))))
             "in.docx" "bytes" "<p>Hi</p>" ["style"; "font"]
             [Element "p" [] [Text "Hi"]] eq_refl eq_refl eq_refl eq_refl).
Defined.

(** ** The whole reconstruction *)

(** C1 at its failing input.  A details-summary marker inside a table
    cell is not a child of [main]: the details builder does not visit it
    and its sweep selects details-content only.  The tree comes back as it
    went in and a recognised marker is still in it. *)
Theorem marker_closure_misses_nested_summary render parse :
  let body :=
    [ Element "table" []
        [ Element "tbody" []
            [ Element "tr" []
                [ Element "td" [] [marker "details-summary" [Text "More"]] ] ] ] ] in
  transform_tree render parse body = Element "main" main_attrs body
  /\ none_in carries_marker (transform_tree render parse body) = false.
Proof. cbv zeta. split; reflexivity. Qed.

(** ** What the passes leave of each other's markers *)

Lemma reads_marker_shallow sel : reads_marker sel -> shallow sel.
Proof. intros (_ & _ & H) t a cs cs'. now apply H. Qed.

Lemma reads_attr_starts p : reads_marker (Sel.attr_starts "data-wet" p).
Proof.
  unfold Sel.attr_starts. split; [| split]; cbn.
  - reflexivity.
  - intros t a cs H. now rewrite H.
  - intros t a a' cs cs' H. now rewrite H.
Qed.

Lemma reads_attr_is v : reads_marker (Sel.attr_is "data-wet" v).
Proof.
  unfold Sel.attr_is. split; [| split]; cbn.
  - reflexivity.
  - intros t a cs H. now rewrite H.
  - intros t a a' cs cs' H. now rewrite H.
Qed.

Lemma reads_div_wet k : reads_marker (Sel.div_wet k).
Proof.
  destruct (reads_attr_is k) as (A & B & C).
  unfold Sel.div_wet. split; [| split].
  - intros s. reflexivity.
  - intros t a cs H. rewrite (B t a cs H). apply andb_false_r.
  - intros t a a' cs cs' H. now rewrite (C t a a' cs cs' H).
Qed.

Lemma reads_div_wet_starts p : reads_marker (Sel.div_wet_starts p).
Proof.
  destruct (reads_attr_starts p) as (A & B & C).
  unfold Sel.div_wet_starts. split; [| split].
  - intros s. reflexivity.
  - intros t a cs H. rewrite (B t a cs H). apply andb_false_r.
  - intros t a a' cs cs' H. now rewrite (C t a a' cs cs' H).
Qed.

Lemma reads_list_marker : reads_marker list_marker.
Proof.
  destruct (reads_attr_is "list-inline") as (A1 & B1 & C1).
  destruct (reads_attr_is "list-unstyled") as (A2 & B2 & C2).
  unfold list_marker. split; [| split].
  - intros s. reflexivity.
  - intros t a cs H. now rewrite (B1 t a cs H), (B2 t a cs H).
  - intros t a a' cs cs' H.
    now rewrite (C1 t a a' cs cs' H), (C2 t a a' cs cs' H).
Qed.

Lemma none_among_ext sel sel' l :
  (forall n, sel n = sel' n) -> none_among sel l = none_among sel' l.
Proof.
  intros E.
  assert (N : forall n, none_in sel n = none_in sel' n).
  { induction n as [s | t a cs IH] using node_forall_ind.
    - cbn. now rewrite E.
    - rewrite !none_in_element, E. f_equal.
      induction IH as [| c cs' Hc _ IHcs]; [reflexivity |].
      cbn. now rewrite Hc, IHcs. }
  induction l as [| m r IH]; [reflexivity |]. cbn. now rewrite N, IH.
Qed.

Lemma setAttr_other name value other a :
  (name =? other) = false ->
  Dom.getAttr other (Dom.setAttr name value a) = Dom.getAttr other a.
Proof.
  intros Hne. induction a as [| [k v] a' IH]; cbn.
  - now rewrite Hne.
  - destruct (k =? name) eqn:Ek; cbn.
    + apply String.eqb_eq in Ek. subst k. now rewrite Hne.
    + now rewrite IH.
Qed.

Lemma addClass_data_wet cls a :
  Dom.getAttr "data-wet" (Dom.addClass cls a) = Dom.getAttr "data-wet" a.
Proof.
  unfold Dom.addClass. destruct cls as [| c cls']; [reflexivity |].
  destruct (Dom.getAttr "class" a) as [[| c0 cl] |];
    now rewrite setAttr_other.
Qed.

Section Preserved.

Variable sel : node -> bool.
Hypothesis sel_reads : reads_marker sel.

Lemma fresh_clean t a cs :
  Dom.getAttr "data-wet" a = None ->
  none_among sel cs = true ->
  none_in sel (Element t a cs) = true.
Proof.
  intros Ha Hcs. rewrite none_in_element, Hcs.
  destruct sel_reads as (_ & B & _). now rewrite (B t a cs Ha).
Qed.

Lemma find_remove_preserves sel' l :
  none_among sel l = true -> none_among sel (find_remove sel' l) = true.
Proof.
  pose proof (reads_marker_shallow sel sel_reads) as Hsh.
  assert (N : forall n, none_in sel n = true -> none_in sel (remove_in sel' n) = true).
  { induction n as [s | t a cs IH] using node_forall_ind; [trivial |].
    rewrite remove_in_element, !none_in_element, (Hsh t a (find_remove sel' cs) cs).
    intros H. apply andb_prop in H. destruct H as [H1 H2]. rewrite H1. cbn.
    clear H1.
    induction IH as [| c cs' Hc _ IHcs]; [reflexivity |].
    cbn in H2. apply andb_prop in H2. destruct H2 as [Hc' Hcs'].
    cbn [find_remove]. destruct (sel' c); [now apply IHcs |].
    cbn. now rewrite (Hc Hc'), (IHcs Hcs'). }
  induction l as [| m r IH]; [trivial |].
  cbn. intros H. apply andb_prop in H. destruct H as [Hm Hr].
  destruct (sel' m); [now apply IH |].
  cbn. now rewrite (N m Hm), (IH Hr).
Qed.

Lemma scan_preserves is_start build :
  (forall n rest,
      none_in sel n = true -> none_among sel rest = true ->
      none_in sel (fst (build n rest)) = true
      /\ none_among sel (snd (build n rest)) = true) ->
  forall turns l,
    none_among sel l = true -> none_among sel (scan is_start build turns l) = true.
Proof.
  intros Hb. induction turns as [| turns IH]; intros l H; [exact H |].
  destruct l as [| n rest]; [reflexivity |].
  cbn in H. apply andb_prop in H. destruct H as [Hn Hr].
  cbn [scan]. destruct (is_start n).
  - destruct (Hb n rest Hn Hr) as [B1 B2].
    destruct (build n rest) as [built rest']. cbn in *.
    now rewrite B1, (IH rest' B2).
  - cbn. now rewrite Hn, (IH rest Hr).
Qed.

Lemma remove_end_preserves k l :
  none_among sel l = true -> none_among sel (remove_end k l) = true.
Proof.
  destruct l as [| m r]; [trivial |]. cbn.
  intros H. destruct (Sel.div_wet k m); [| exact H].
  now apply andb_prop in H.
Qed.

Lemma none_among_snoc l n :
  none_among sel l = true -> none_in sel n = true -> none_among sel (l ++ [n]) = true.
Proof. intros Hl Hn. rewrite none_among_app, Hl. cbn. now rewrite Hn. Qed.

Lemma page_entry_clean render m e :
  page_entry render m = Some e -> none_in sel e = true.
Proof.
  destruct sel_reads as (ST & B & _).
  assert (T : forall s, none_among sel [Text s] = true) by (intros s; cbn; now rewrite ST).
  unfold page_entry, page_link, el_class.
  destruct (Sel.div_wet "pagination-active" m);
    [| destruct (Sel.div_wet "pagination-disabled" m);
       [| destruct (Sel.div_wet "pagination-item" m); [| discriminate]]];
    intros [= <-];
    (apply fresh_clean; [reflexivity |]; cbn [none_among];
     rewrite fresh_clean; [reflexivity | reflexivity | apply T]).
Qed.

Lemma pagination_scope_preserves render l :
  forall entries,
    none_among sel entries = true -> none_among sel l = true ->
    none_among sel (fst (pagination_scope render entries l)) = true
    /\ none_among sel (snd (pagination_scope render entries l)) = true.
Proof.
  induction l as [| m l' IH]; intros entries He Hl; cbn [pagination_scope]; [now split |].
  destruct (Sel.div_wet "pagination-end" m); [now split |].
  destruct (page_entry render m) as [e |] eqn:E; [| now split].
  cbn in Hl. apply andb_prop in Hl. destruct Hl as [_ Hl'].
  apply IH; [| exact Hl'].
  apply none_among_snoc; [exact He | exact (page_entry_clean render m e E)].
Qed.

Lemma buildPagination_preserves render l :
  none_among sel l = true -> none_among sel (buildPagination render l) = true.
Proof.
  intros H. unfold buildPagination, pagination_loop.
  apply find_remove_preserves, scan_preserves; [| exact H].
  intros n rest Hn Hr. unfold pagination_build.
  destruct (pagination_scope_preserves render rest [] eq_refl Hr) as [C1 C2].
  destruct (pagination_scope render [] rest) as [entries rest']. cbn [fst snd] in *.
  split; [| now apply remove_end_preserves].
  unfold pagination_nav, el_class.
  apply fresh_clean; [reflexivity |]. cbn [none_among].
  rewrite fresh_clean; [reflexivity | reflexivity | exact C1].
Qed.

Lemma update_first_preserves target change l :
  (forall m, none_in sel m = true -> none_among sel (change m) = true) ->
  none_among sel l = true -> none_among sel (update_first target change l) = true.
Proof.
  intros Hc. induction l as [| m r IH]; [trivial |].
  cbn. intros H. apply andb_prop in H. destruct H as [Hm Hr].
  destruct (target m).
  - now rewrite none_among_app, (Hc m Hm), Hr.
  - cbn. now rewrite Hm, (IH Hr).
Qed.

Lemma annotate_each_preserves kind_of effect :
  (forall k l, none_among sel l = true -> none_among sel (effect k l) = true) ->
  forall f l,
    none_among sel l = true ->
    none_among sel (annotate_each kind_of effect f l) = true.
Proof.
  intros He. pose proof (reads_marker_shallow sel sel_reads) as Hsh.
  induction f as [| f IH]; intros l H; [exact H |].
  destruct l as [| n later]; [reflexivity |].
  cbn in H. apply andb_prop in H. destruct H as [Hn Hl].
  cbn [annotate_each]. destruct (kind_of n).
  - apply IH, He, Hl.
  - destruct n as [s | t a cs]; cbn [none_among].
    + now rewrite Hn, (IH later Hl).
    + rewrite (IH later Hl), andb_true_r.
      rewrite none_in_element in Hn |- *.
      apply andb_prop in Hn. destruct Hn as [H1 H2].
      now rewrite (Hsh t a _ cs), H1, (IH cs H2).
Qed.

Lemma tables_preserves l :
  none_among sel l = true -> none_among sel (tables l) = true.
Proof.
  destruct sel_reads as (_ & _ & C).
  apply annotate_each_preserves. intros k later H. unfold table_effect.
  destruct (k =? "table-responsive").
  - apply update_first_preserves; [reflexivity | exact H].
  - destruct (tableClassMap k) as [cls |]; [| exact H].
    apply update_first_preserves; [| exact H].
    intros m Hm. cbn [none_among]. rewrite andb_true_r.
    destruct m as [s | t a cs]; [exact Hm |].
    cbn [set_class]. rewrite none_in_element in Hm |- *.
    now rewrite (C t _ a cs cs (setAttr_other "class" cls "data-wet" a eq_refl)).
Qed.

Lemma lists_preserves l :
  none_among sel l = true -> none_among sel (lists l) = true.
Proof.
  destruct sel_reads as (_ & _ & C).
  apply annotate_each_preserves. intros k later H. unfold list_effect.
  apply update_first_preserves; [| exact H].
  intros m Hm. cbn [none_among]. rewrite andb_true_r.
  destruct m as [s | t a cs]; [exact Hm |].
  cbn [add_class]. rewrite none_in_element in Hm |- *.
  now rewrite (C t _ a cs cs (addClass_data_wet k a)).
Qed.

End Preserved.

(** The same for the direct children of [main] alone. *)
Section PreservedOnTop.

Variable sel : node -> bool.
Hypothesis sel_reads : reads_marker sel.

Let top (l : list node) : bool := forallb (fun n => negb (sel n)) l.

Lemma top_find_remove sel' l : top l = true -> top (find_remove sel' l) = true.
Proof.
  unfold top in *.
  pose proof (reads_marker_shallow sel sel_reads) as Hsh.
  induction l as [| m r IH]; [trivial |].
  cbn. intros H. apply andb_prop in H. destruct H as [Hm Hr].
  destruct (sel' m); [now apply IH |].
  cbn. rewrite (IH Hr), andb_true_r.
  destruct m as [s | t a cs]; [exact Hm |].
  now rewrite remove_in_element, (Hsh t a (find_remove sel' cs) cs).
Qed.

Lemma top_scan is_start build :
  (forall n rest,
      top rest = true ->
      sel (fst (build n rest)) = false /\ top (snd (build n rest)) = true) ->
  forall turns l, top l = true -> top (scan is_start build turns l) = true.
Proof.
  unfold top in *.
  intros Hb. induction turns as [| turns IH]; intros l H; [exact H |].
  destruct l as [| n rest]; [reflexivity |].
  cbn in H. apply andb_prop in H. destruct H as [Hn Hr].
  cbn [scan]. destruct (is_start n).
  - destruct (Hb n rest Hr) as [B1 B2].
    destruct (build n rest) as [built rest']. cbn in *.
    now rewrite B1, (IH rest' B2).
  - cbn. now rewrite Hn, (IH rest Hr).
Qed.

Lemma top_remove_end k l : top l = true -> top (remove_end k l) = true.
Proof.
  unfold top in *.
  destruct l as [| m r]; [trivial |]. cbn.
  intros H. destruct (Sel.div_wet k m); [| exact H].
  now apply andb_prop in H.
Qed.

Lemma top_details_collect render parse l :
  forall built,
    top l = true -> top (snd (details_collect render parse built l)) = true.
Proof.
  unfold top in *.
  induction l as [| m l' IH]; intros built H; cbn [details_collect]; [reflexivity |].
  destruct (Sel.div_wet "details-content" m); [| exact H].
  apply IH. cbn in H. now apply andb_prop in H.
Qed.

Lemma top_details_loop render parse turns l :
  top l = true -> top (details_loop render parse turns l) = true.
Proof.
  unfold top in *.
  destruct sel_reads as (_ & B & _).
  intros H. unfold details_loop.
  apply top_scan; [| exact H].
  intros n rest Hr. unfold details_build.
  pose proof (top_details_collect render parse rest
                [with_html parse "summary" (html render n)] Hr) as T.
  destruct (details_collect render parse _ rest) as [built rest']. cbn [fst snd] in *.
  split; [now apply B | exact T].
Qed.

Lemma top_buildDetails render parse l :
  top l = true -> top (buildDetails render parse l) = true.
Proof.
  intros H. unfold buildDetails. now apply top_find_remove, top_details_loop.
Qed.

Lemma top_accordion_scope render parse l :
  forall closed current,
    top l = true -> top (snd (accordion_scope render parse closed current l)) = true.
Proof.
  unfold top in *.
  induction l as [| m l' IH]; intros closed current H; cbn [accordion_scope]; [reflexivity |].
  assert (H' : top l' = true) by (cbn in H; now apply andb_prop in H).
  destruct (Sel.div_wet "accordion-end" m); [exact H |].
  destruct (Sel.div_wet "accordion-heading" m); [now apply IH |].
  destruct (Sel.div_wet "accordion-panel" m); [destruct current; now apply IH |].
  destruct current; [now apply IH | exact H].
Qed.

Lemma top_pagination_scope render l :
  forall entries,
    top l = true -> top (snd (pagination_scope render entries l)) = true.
Proof.
  unfold top in *.
  induction l as [| m l' IH]; intros entries H; cbn [pagination_scope]; [reflexivity |].
  assert (H' : top l' = true) by (cbn in H; now apply andb_prop in H).
  destruct (Sel.div_wet "pagination-end" m); [exact H |].
  destruct (page_entry render m); [now apply IH | exact H].
Qed.

Lemma top_buildAccordion render parse l :
  top l = true -> top (buildAccordion render parse l) = true.
Proof.
  unfold top in *.
  destruct sel_reads as (_ & B & _).
  intros H. unfold buildAccordion, accordion_loop.
  apply top_find_remove, top_scan; [| exact H].
  intros n rest Hr. unfold accordion_build.
  pose proof (top_accordion_scope render parse rest [] None Hr) as T.
  destruct (accordion_scope render parse [] None rest) as [items rest'].
  cbn [fst snd] in *.
  split; [| now apply top_remove_end].
  unfold el_class. apply B, addClass_no_data_wet.
Qed.

Lemma top_buildPagination render l : top l = true -> top (buildPagination render l) = true.
Proof.
  unfold top in *.
  destruct sel_reads as (_ & B & _).
  intros H. unfold buildPagination, pagination_loop.
  apply top_find_remove, top_scan; [| exact H].
  intros n rest Hr. unfold pagination_build.
  pose proof (top_pagination_scope render rest [] Hr) as T.
  destruct (pagination_scope render [] rest) as [entries rest']. cbn [fst snd] in *.
  split; [| now apply top_remove_end].
  unfold pagination_nav. now apply B.
Qed.

Lemma top_update_first target change l :
  (forall m, sel m = false -> top (change m) = true) ->
  top l = true -> top (update_first target change l) = true.
Proof.
  unfold top in *.
  intros Hc. induction l as [| m r IH]; [trivial |].
  cbn. intros H. apply andb_prop in H. destruct H as [Hm Hr].
  apply negb_true_iff in Hm.
  destruct (target m).
  - rewrite forallb_app. now rewrite (Hc m Hm), Hr.
  - cbn. now rewrite Hm, (IH Hr).
Qed.

Lemma top_annotate_each kind_of effect :
  (forall k l, top l = true -> top (effect k l) = true) ->
  forall f l, top l = true -> top (annotate_each kind_of effect f l) = true.
Proof.
  unfold top in *.
  pose proof (reads_marker_shallow sel sel_reads) as Hsh.
  intros He. induction f as [| f IH]; intros l H; [exact H |].
  destruct l as [| n later]; [reflexivity |].
  cbn in H. apply andb_prop in H. destruct H as [Hn Hl].
  cbn [annotate_each]. destruct (kind_of n) as [k |].
  - apply IH, He, Hl.
  - destruct n as [s | t a cs]; cbn.
    + now rewrite Hn, (IH later Hl).
    + now rewrite (Hsh t a _ cs), Hn, (IH later Hl).
Qed.

Lemma top_lists l : top l = true -> top (lists l) = true.
Proof.
  unfold top in *.
  destruct sel_reads as (_ & _ & C).
  apply top_annotate_each. intros k later H.
  unfold list_effect. apply top_update_first; [| exact H].
  intros m Hm. cbn. rewrite andb_true_r. apply negb_true_iff.
  destruct m as [s | t a cs]; [exact Hm |].
  cbn [add_class]. now rewrite (C t _ a cs cs (addClass_data_wet k a)).
Qed.

Lemma top_tables l : top l = true -> top (tables l) = true.
Proof.
  unfold top in *.
  destruct sel_reads as (_ & _ & C).
  apply top_annotate_each. intros k later H.
  unfold table_effect. destruct (k =? "table-responsive").
  - apply top_update_first; [reflexivity | exact H].
  - destruct (tableClassMap k) as [cls |]; [| exact H].
    apply top_update_first; [| exact H].
    intros m Hm. cbn. rewrite andb_true_r. apply negb_true_iff.
    destruct m as [s | t a cs]; [exact Hm |].
    cbn [set_class]. now rewrite (C t _ a cs cs (setAttr_other "class" cls "data-wet" a eq_refl)).
Qed.

End PreservedOnTop.

Lemma details_loop_consumes render parse turns :
  forall l, List.length l <= turns ->
            forallb (fun n => negb (Sel.div_wet "details-summary" n))
              (details_loop render parse turns l) = true.
Proof.
  unfold details_loop.
  induction turns as [| turns IH]; intros l H.
  - destruct l; [reflexivity | cbn in H; lia].
  - destruct l as [| n rest]; [reflexivity |].
    cbn in H. cbn [scan].
    destruct (Sel.div_wet "details-summary" n) eqn:E.
    + pose proof (details_build_length render parse n rest) as L.
      unfold details_build in *.
      destruct (details_collect render parse _ rest) as [built rest']. cbn in L.
      cbn [forallb]. rewrite IH by lia. reflexivity.
    + cbn [forallb]. rewrite E, IH by lia. reflexivity.
Qed.

Lemma table_marker_kind n :
  match table_kind n with Some _ => true | None => false end = table_marker n.
Proof.
  unfold table_kind, table_marker, Sel.attr_starts.
  destruct (Dom.attr "data-wet" n) as [v |]; [| reflexivity].
  now destruct (String.prefix "table-" v).
Qed.

Lemma list_marker_kind n :
  match list_kind n with Some _ => true | None => false end = list_marker n.
Proof.
  unfold list_kind, list_marker, Sel.attr_is.
  destruct (Dom.attr "data-wet" n) as [v |]; [| reflexivity].
  now destruct ((v =? "list-inline") || (v =? "list-unstyled")).
Qed.

(** * Further properties of the passes *)

(** ** Tools *)

Lemma find_remove_app sel l1 l2 :
  find_remove sel (l1 ++ l2) = (find_remove sel l1 ++ find_remove sel l2)%list.
Proof.
  induction l1 as [| m r IH]; [reflexivity |].
  cbn. destruct (sel m); [exact IH | cbn; now rewrite IH].
Qed.

Lemma find_remove_fresh sel (content : node -> list node) t ms :
  (forall cs, sel (Element t [] cs) = false) ->
  find_remove sel (map (fun m => Element t [] (content m)) ms)
  = map (fun m => Element t [] (find_remove sel (content m))) ms.
Proof.
  intros Hp. induction ms as [| m r IH]; [reflexivity |].
  cbn [map]. rewrite find_remove_keep by apply Hp. now rewrite IH.
Qed.

Lemma none_among_top sel l :
  none_among sel l = true -> forallb (fun n => negb (sel n)) l = true.
Proof.
  induction l as [| m r IH]; [reflexivity |].
  cbn. intros H. apply andb_prop in H. destruct H as [Hm Hr].
  now rewrite (none_in_not_selected _ _ Hm), (IH Hr).
Qed.

Lemma top_weaken (sel sel' : node -> bool) l :
  (forall n, sel' n = true -> sel n = true) ->
  forallb (fun n => negb (sel n)) l = true ->
  forallb (fun n => negb (sel' n)) l = true.
Proof.
  intros Hw. induction l as [| m r IH]; [reflexivity |].
  cbn. intros H. apply andb_prop in H. destruct H as [Hm Hr].
  rewrite (IH Hr), andb_true_r.
  destruct (sel' m) eqn:E; [| reflexivity].
  rewrite (Hw m E) in Hm. discriminate Hm.
Qed.

Lemma find_remove_keeps sel x l :
  none_in sel x = true -> In x l -> In x (find_remove sel l).
Proof.
  intros Hx. induction l as [| m r IH]; [trivial |].
  intros [-> | H]; cbn [find_remove].
  - rewrite (none_in_not_selected _ _ Hx), (remove_in_id _ _ Hx). now left.
  - destruct (sel m); [now apply IH | right; now apply IH].
Qed.

Lemma remove_end_keeps k x l :
  Sel.div_wet k x = false -> In x l -> In x (remove_end k l).
Proof.
  intros Hx. destruct l as [| m r]; [trivial |]. cbn [remove_end].
  destruct (Sel.div_wet k m) eqn:E; [| trivial].
  intros [-> | H]; [congruence | exact H].
Qed.

(** ** Details, for runs of any length *)

Lemma details_collect_run render parse cs :
  forall built rest,
    forallb (Sel.div_wet "details-content") cs = true ->
    existsb (Sel.div_wet "details-content") (firstn 1 rest) = false ->
    details_collect render parse built (cs ++ rest)
    = ((built ++ map (fun c => Element "p" [] (reparsed render parse "p" c)) cs)%list, rest).
Proof.
  induction cs as [| c cs' IH]; intros built rest Hcs Hrest.
  - cbn [app map]. rewrite app_nil_r.
    destruct rest as [| x rest']; [reflexivity |].
    cbn in Hrest. rewrite orb_false_r in Hrest.
    cbn [details_collect]. now rewrite Hrest.
  - cbn in Hcs. apply andb_prop in Hcs. destruct Hcs as [Hc Hcs'].
    cbn [app details_collect]. rewrite Hc, (IH _ rest Hcs' Hrest).
    rewrite (with_html_marker render parse "p" _ c Hc).
    cbn [map]. now rewrite <- app_assoc.
Qed.

(** X5.  A summary marker with the whole run of content markers after it
    becomes one details element: a summary that holds the inner HTML of
    the summary marker, then a paragraph per content marker in order that
    holds the inner HTML of that marker, whatever the length of the run.
    The inner HTML is parsed into the new element and swept of
    details-content marker divs.  What follows the run is treated as if it
    stood alone. *)
Theorem details_block render parse s cs rest :
  Sel.div_wet "details-summary" s = true ->
  forallb (Sel.div_wet "details-content") cs = true ->
  existsb (Sel.div_wet "details-content") (firstn 1 rest) = false ->
  let swept := find_remove (Sel.div_wet "details-content") in
  buildDetails render parse (s :: cs ++ rest)
  = Element "details" []
      (Element "summary" [] (swept (parse "summary" (render (Some "div") (Dom.childNodes s))))
         :: map (fun c => Element "p" [] (swept (parse "p" (render (Some "div") (Dom.childNodes c))))) cs)
      :: buildDetails render parse rest.
Proof.
  intros Hs Hcs Hrest swept.
  unfold buildDetails, details_loop.
  rewrite (scan_start _ _ s (cs ++ rest) (details_build_length render parse) Hs).
  unfold details_build. rewrite (details_collect_run render parse cs _ rest Hcs Hrest).
  cbn [fst snd app]. rewrite (with_html_marker render parse "summary" _ s Hs).
  rewrite find_remove_keep by reflexivity. f_equal.
  rewrite find_remove_keep by reflexivity.
  rewrite (find_remove_fresh _ (reparsed render parse "p") "p") by reflexivity.
  reflexivity.
Qed.

Lemma details_block_witness :
  buildDetails plain_render plain_parse
    [ marker "details-summary" [Text "More"];
      marker "details-content" [Text "one"];
      marker "details-content" [Element "strong" [] [Text "two"]];
      marker "details-content" [Text "three"; marker "details-content" [Text "inner"]];
      Element "p" [] [Text "after"];
      marker "details-summary" [Text "Again"] ]
  = [ Element "details" []
        [ Element "summary" [] [Text "More"];
          Element "p" [] [Text "one"];
          Element "p" [] [Element "strong" [] [Text "two"]];
          Element "p" [] [Text "three"] ];
      Element "p" [] [Text "after"];
      Element "details" [] [Element "summary" [] [Text "Again"]] ].
Proof.
  exact (details_block plain_render plain_parse
           (marker "details-summary" [Text "More"])
           [ marker "details-content" [Text "one"];
             marker "details-content" [Element "strong" [] [Text "two"]];
             marker "details-content"
               [Text "three"; marker "details-content" [Text "inner"]] ]
           [Element "p" [] [Text "after"]; marker "details-summary" [Text "Again"]]
           eq_refl eq_refl eq_refl).
Defined.

Lemma buildDetails_other render parse x rest :
  Sel.div_wet "details-summary" x = false ->
  buildDetails render parse (x :: rest)
  = (find_remove (Sel.div_wet "details-content") [x] ++ buildDetails render parse rest)%list.
Proof.
  intros Hx. unfold buildDetails, details_loop.
  rewrite (scan_other _ _ x rest Hx).
  change (x :: scan (Sel.div_wet "details-summary") (details_build render parse)
                (List.length rest) rest)
    with ([x] ++ scan (Sel.div_wet "details-summary") (details_build render parse)
                   (List.length rest) rest)%list.
  apply find_remove_app.
Qed.

(** X6.  A content marker that no summary opens is dropped together with what
    it holds: the text of that paragraph is lost. *)
Theorem details_stray_content render parse c rest :
  Sel.div_wet "details-content" c = true ->
  buildDetails render parse (c :: rest) = buildDetails render parse rest.
Proof.
  intros Hc.
  rewrite buildDetails_other
    by (rewrite (div_wet_decides _ "details-summary" _ Hc); reflexivity).
  cbn [find_remove]. now rewrite Hc.
Qed.

Lemma details_stray_content_witness :
  buildDetails plain_render plain_parse
    [marker "details-content" [Text "lost"]; Element "p" [] [Text "kept"]]
  = [Element "p" [] [Text "kept"]].
Proof.
  rewrite (details_stray_content plain_render plain_parse
             (marker "details-content" [Text "lost"])
             [Element "p" [] [Text "kept"]] eq_refl).
  reflexivity.
Defined.

Lemma details_collect_keeps render parse x l :
  Sel.div_wet "details-content" x = false ->
  forall built, In x l -> In x (snd (details_collect render parse built l)).
Proof.
  intros Hx. induction l as [| m l' IH]; intros built H; [exact H |].
  cbn [details_collect]. destruct (Sel.div_wet "details-content" m) eqn:E; [| exact H].
  destruct H as [-> | H]; [congruence | now apply IH].
Qed.

(** X7.  The details pass never loses or changes a node that is no details
    marker and holds no content marker: it is still a child of [main]
    afterwards. *)
Theorem details_keeps_unrelated render parse x l :
  Sel.div_wet "details-summary" x = false ->
  none_in (Sel.div_wet "details-content") x = true ->
  In x l -> In x (buildDetails render parse l).
Proof.
  intros Hs Hx H. unfold buildDetails, details_loop.
  apply find_remove_keeps; [exact Hx |].
  apply scan_keeps; [| exact Hs | exact H].
  intros n rest K. unfold details_build.
  pose proof (details_collect_keeps render parse x rest (none_in_not_selected _ _ Hx)
                [with_html parse "summary" (html render n)] K) as Q.
  now destruct (details_collect render parse _ rest).
Qed.

Lemma details_keeps_unrelated_witness :
  In (Element "p" [] [Text "kept"])
    (buildDetails plain_render plain_parse
       [ marker "details-summary" [Text "More"]; marker "details-content" [Text "one"];
         Element "p" [] [Text "kept"]; marker "details-content" [Text "stray"] ]).
Proof.
  apply details_keeps_unrelated; [reflexivity | reflexivity |].
  right. right. now left.
Defined.

Lemma buildDetails_id render parse l :
  forallb (fun n => negb (Sel.div_wet "details-summary" n)) l = true ->
  none_among (Sel.div_wet "details-content") l = true ->
  buildDetails render parse l = l.
Proof.
  intros Ht Hc. unfold buildDetails, details_loop.
  rewrite scan_no_start by exact Ht. now apply find_remove_id.
Qed.

(** ** Accordion, for items of any length *)

Lemma accordion_scope_panels render parse ps :
  forall closed cs l,
    forallb (Sel.div_wet "accordion-panel") ps = true ->
    accordion_scope render parse closed (Some cs) (ps ++ l)
    = accordion_scope render parse closed
        (Some (cs ++ map (fun m => Element "p" [] (reparsed render parse "p" m)) ps)%list) l.
Proof.
  induction ps as [| m ps' IH]; intros closed cs l H.
  - cbn [app map]. now rewrite app_nil_r.
  - cbn in H. apply andb_prop in H. destruct H as [Hm Hps].
    cbn [app accordion_scope]. decide_markers.
    cbn [String.eqb Ascii.eqb Bool.eqb].
    rewrite (with_html_marker render parse "p" _ m Hm).
    rewrite (IH closed _ l Hps). cbn [map]. now rewrite <- app_assoc.
Qed.

Lemma buildAccordion_start render parse start rest :
  Sel.div_wet "accordion-start" start = true ->
  buildAccordion render parse (start :: rest)
  = find_remove (Sel.div_wet_starts "accordion-")
      (fst (accordion_build render parse start rest)
         :: accordion_loop render parse
              (List.length (snd (accordion_build render parse start rest)))
              (snd (accordion_build render parse start rest))).
Proof.
  intros Hs. unfold buildAccordion, accordion_loop.
  now rewrite (scan_start _ _ start rest (accordion_build_length render parse) Hs).
Qed.

(** X8.  A heading opens an item whose summary holds the inner HTML of the
    heading marker and that takes one paragraph from every panel marker up
    to the end marker, in order and whatever their number, each holding
    the inner HTML of its marker.  The inner HTML is parsed into the new
    element and swept of accordion marker divs.  The end marker is
    consumed and what follows it is treated as if it stood alone. *)
Theorem accordion_item_block render parse start h ps e rest :
  Sel.div_wet "accordion-start" start = true ->
  Sel.div_wet "accordion-heading" h = true ->
  forallb (Sel.div_wet "accordion-panel") ps = true ->
  Sel.div_wet "accordion-end" e = true ->
  let swept := find_remove (Sel.div_wet_starts "accordion-") in
  buildAccordion render parse (start :: h :: ps ++ e :: rest)
  = Element "section" [("class", "wb-accordion")]
      [ Element "details" []
          (Element "summary" [] (swept (parse "summary" (render (Some "div") (Dom.childNodes h))))
             :: map (fun m => Element "p" [] (swept (parse "p" (render (Some "div") (Dom.childNodes m)))))
                  ps) ]
      :: buildAccordion render parse rest.
Proof.
  intros Hs Hh Hps He swept.
  rewrite (buildAccordion_start render parse start _ Hs).
  unfold accordion_build. cbn [accordion_scope].
  decide_markers. cbn [String.eqb Ascii.eqb Bool.eqb section_items].
  rewrite (with_html_marker render parse "summary" _ h Hh).
  rewrite (accordion_scope_panels render parse ps _ _ _ Hps).
  cbn [accordion_scope]. rewrite He.
  cbn [fst snd section_items app remove_end]. rewrite He.
  unfold el_class.
  rewrite !find_remove_keep by reflexivity.
  rewrite (find_remove_fresh _ (reparsed render parse "p") "p") by reflexivity.
  reflexivity.
Qed.

Lemma accordion_item_block_witness :
  buildAccordion plain_render plain_parse
    [ marker "accordion-start" []; marker "accordion-heading" [Text "H"];
      marker "accordion-panel" [Text "one"];
      marker "accordion-panel" [Element "em" [] [Text "two"]];
      marker "accordion-panel" [Text "three"; marker "accordion-panel" [Text "inner"]];
      marker "accordion-end" []; Element "p" [] [Text "after"] ]
  = [ Element "section" [("class", "wb-accordion")]
        [ Element "details" []
            [ Element "summary" [] [Text "H"];
              Element "p" [] [Text "one"];
              Element "p" [] [Element "em" [] [Text "two"]];
              Element "p" [] [Text "three"] ] ];
      Element "p" [] [Text "after"] ].
Proof.
  exact (accordion_item_block plain_render plain_parse
           (marker "accordion-start" []) (marker "accordion-heading" [Text "H"])
           [ marker "accordion-panel" [Text "one"];
             marker "accordion-panel" [Element "em" [] [Text "two"]];
             marker "accordion-panel"
               [Text "three"; marker "accordion-panel" [Text "inner"]] ]
           (marker "accordion-end" []) [Element "p" [] [Text "after"]]
           eq_refl eq_refl eq_refl eq_refl).
Defined.

(** X9.  Once an item is open, an element that is no accordion marker is
    absorbed: its inner HTML, parsed into a new paragraph and swept of
    accordion marker divs, becomes one more paragraph of the item, and the
    element itself, with its tag and attributes, is gone from the children
    of [main]. *)
Theorem accordion_absorbs_unrelated render parse start h t a cs e rest :
  Sel.div_wet "accordion-start" start = true ->
  Sel.div_wet "accordion-heading" h = true ->
  Sel.div_wet_starts "accordion-" (Element t a cs) = false ->
  Sel.div_wet "accordion-end" e = true ->
  let swept := find_remove (Sel.div_wet_starts "accordion-") in
  buildAccordion render parse (start :: h :: Element t a cs :: e :: rest)
  = Element "section" [("class", "wb-accordion")]
      [ Element "details" []
          [ Element "summary" [] (swept (parse "summary" (render (Some "div") (Dom.childNodes h))));
            Element "p" [] (swept (parse "p" (render (Some t) cs))) ] ]
      :: buildAccordion render parse rest.
Proof.
  intros Hs Hh Hx He swept.
  rewrite (buildAccordion_start render parse start _ Hs).
  unfold accordion_build. cbn [accordion_scope].
  rewrite (div_wet_starts_false "accordion-" "accordion-end" _ Hx eq_refl).
  rewrite (div_wet_starts_false "accordion-" "accordion-heading" _ Hx eq_refl).
  rewrite (div_wet_starts_false "accordion-" "accordion-panel" _ Hx eq_refl).
  decide_markers. cbn [String.eqb Ascii.eqb Bool.eqb section_items].
  rewrite (with_html_marker render parse "summary" _ h Hh), with_html_element.
  cbn [fst snd section_items app remove_end]. rewrite He.
  unfold el_class, reparsed. sweep. reflexivity.
Qed.

Lemma accordion_absorbs_unrelated_witness :
  buildAccordion plain_render plain_parse
    [ marker "accordion-start" []; marker "accordion-heading" [Text "H"];
      Element "ul" [("class", "nav")]
        [Element "li" [] [Text "first"]; Element "li" [] [Text "second"]];
      marker "accordion-end" []; Element "p" [] [Text "after"] ]
  = [ Element "section" [("class", "wb-accordion")]
        [ Element "details" []
            [ Element "summary" [] [Text "H"];
              Element "p" []
                [Element "li" [] [Text "first"]; Element "li" [] [Text "second"]] ] ];
      Element "p" [] [Text "after"] ].
Proof.
  exact (accordion_absorbs_unrelated plain_render plain_parse
           (marker "accordion-start" []) (marker "accordion-heading" [Text "H"])
           "ul" [("class", "nav")]
           [Element "li" [] [Text "first"]; Element "li" [] [Text "second"]]
           (marker "accordion-end" []) [Element "p" [] [Text "after"]]
           eq_refl eq_refl eq_refl eq_refl).
Defined.

(** X10.  An accordion marker other than a start, met outside any scope, is
    dropped together with what it holds. *)
Theorem accordion_stray_marker render parse x rest :
  Sel.div_wet_starts "accordion-" x = true ->
  Sel.div_wet "accordion-start" x = false ->
  buildAccordion render parse (x :: rest) = buildAccordion render parse rest.
Proof.
  intros Hx Hs. unfold buildAccordion, accordion_loop.
  rewrite (scan_other _ _ x rest Hs).
  now rewrite find_remove_drop.
Qed.

Lemma accordion_stray_marker_witness :
  buildAccordion plain_render plain_parse
    [marker "accordion-panel" [Text "lost"]; Element "p" [] [Text "kept"]]
  = [Element "p" [] [Text "kept"]].
Proof.
  rewrite (accordion_stray_marker plain_render plain_parse
             (marker "accordion-panel" [Text "lost"])
             [Element "p" [] [Text "kept"]] eq_refl eq_refl).
  reflexivity.
Defined.

Lemma start_is_family k p n :
  String.prefix p k = true -> Sel.div_wet k n = true -> Sel.div_wet_starts p n = true.
Proof. intros Hp H. now rewrite (div_wet_starts_decides k p n H). Qed.

Lemma buildAccordion_id render parse l :
  none_among (Sel.div_wet_starts "accordion-") l = true ->
  buildAccordion render parse l = l.
Proof.
  intros H. unfold buildAccordion, accordion_loop.
  rewrite scan_no_start; [now apply find_remove_id |].
  apply (top_weaken (Sel.div_wet_starts "accordion-"));
    [exact (fun n => start_is_family "accordion-start" "accordion-" n eq_refl)
    | now apply none_among_top].
Qed.

Lemma buildPagination_id render l :
  none_among (Sel.div_wet_starts "pagination-") l = true -> buildPagination render l = l.
Proof.
  intros H. unfold buildPagination, pagination_loop.
  rewrite scan_no_start; [now apply find_remove_id |].
  apply (top_weaken (Sel.div_wet_starts "pagination-"));
    [exact (fun n => start_is_family "pagination-start" "pagination-" n eq_refl)
    | now apply none_among_top].
Qed.

(** ** Pagination, for lists of any length *)

Lemma page_entry_not_end render m e :
  page_entry render m = Some e -> Sel.div_wet "pagination-end" m = false.
Proof.
  unfold page_entry.
  destruct (Sel.div_wet "pagination-active" m) eqn:A;
    [intros _; now rewrite (div_wet_decides _ "pagination-end" _ A) |].
  destruct (Sel.div_wet "pagination-disabled" m) eqn:D;
    [intros _; now rewrite (div_wet_decides _ "pagination-end" _ D) |].
  destruct (Sel.div_wet "pagination-item" m) eqn:I;
    [intros _; now rewrite (div_wet_decides _ "pagination-end" _ I) | discriminate].
Qed.

Lemma pagination_scope_entries render ms :
  forall entries added l,
    map (page_entry render) ms = map Some added ->
    pagination_scope render entries (ms ++ l)
    = pagination_scope render (entries ++ added)%list l.
Proof.
  induction ms as [| m ms' IH]; intros entries added l H.
  - destruct added; [| discriminate]. cbn [app]. now rewrite app_nil_r.
  - destruct added as [| e added']; [discriminate |].
    cbn [map] in H. injection H as He Hrest.
    cbn [app pagination_scope].
    rewrite (page_entry_not_end render m e He), He.
    rewrite (IH _ added' l Hrest). now rewrite <- app_assoc.
Qed.

Lemma entries_clean render sel ms added :
  reads_marker sel ->
  map (page_entry render) ms = map Some added ->
  none_among sel added = true.
Proof.
  intros Hr. revert added.
  induction ms as [| m ms' IH]; intros [| e added'] H; try discriminate; [reflexivity |].
  cbn [map] in H. injection H as He Hrest.
  cbn [none_among]. now rewrite (page_entry_clean sel Hr render m e He), (IH _ Hrest).
Qed.

(** X11.  A start marker followed by interior markers and the end marker
    becomes one navigation list with one entry per interior marker, in
    order and whatever their number; the end marker is consumed and what
    follows it is treated as if it stood alone. *)
Theorem pagination_block render start ms entries e rest :
  Sel.div_wet "pagination-start" start = true ->
  map (page_entry render) ms = map Some entries ->
  Sel.div_wet "pagination-end" e = true ->
  buildPagination render (start :: ms ++ e :: rest)
  = pagination_nav entries :: buildPagination render rest.
Proof.
  intros Hs Hms He.
  unfold buildPagination, pagination_loop.
  rewrite (scan_start _ _ start _ (pagination_build_length render) Hs).
  unfold pagination_build.
  rewrite (pagination_scope_entries render ms [] entries _ Hms).
  cbn [app pagination_scope]. rewrite He.
  cbn [fst snd remove_end]. rewrite He.
  unfold pagination_nav, el_class.
  rewrite !find_remove_keep by reflexivity.
  rewrite (find_remove_id _ entries
             (entries_clean render _ ms entries (reads_div_wet_starts "pagination-") Hms)).
  reflexivity.
Qed.

Lemma pagination_block_witness :
  buildPagination plain_render
    (marker "pagination-start" []
       :: [ marker "pagination-item" [Text "1"]; marker "pagination-item" [Text "2"];
            marker "pagination-active" [Text "3"]; marker "pagination-item" [Text "4"] ]
       ++ marker "pagination-end" [] :: [Element "p" [] [Text "after"]])
  = [ pagination_nav
        [ Element "li" [] [page_link [] "1"]; Element "li" [] [page_link [] "2"];
          el_class "li" "active" [page_link [("aria-current", "page")] "3"];
          Element "li" [] [page_link [] "4"] ];
      Element "p" [] [Text "after"] ].
Proof.
  rewrite (pagination_block plain_render
             (marker "pagination-start" [])
             [ marker "pagination-item" [Text "1"]; marker "pagination-item" [Text "2"];
               marker "pagination-active" [Text "3"]; marker "pagination-item" [Text "4"] ]
             [ Element "li" [] [page_link [] "1"]; Element "li" [] [page_link [] "2"];
               el_class "li" "active" [page_link [("aria-current", "page")] "3"];
               Element "li" [] [page_link [] "4"] ]
             (marker "pagination-end" []) [Element "p" [] [Text "after"]]
             eq_refl eq_refl eq_refl).
  reflexivity.
Defined.

Lemma pagination_scope_keeps render x l :
  Sel.div_wet_starts "pagination-" x = false ->
  forall entries, In x l -> In x (snd (pagination_scope render entries l)).
Proof.
  intros Hx. induction l as [| m l' IH]; intros entries H; [exact H |].
  cbn [pagination_scope].
  destruct (Sel.div_wet "pagination-end" m); [exact H |].
  destruct (page_entry render m) as [e |] eqn:E; [| exact H].
  destruct H as [-> | H]; [| now apply IH].
  exfalso. revert E. unfold page_entry.
  rewrite (div_wet_starts_false "pagination-" "pagination-active" x Hx eq_refl).
  rewrite (div_wet_starts_false "pagination-" "pagination-disabled" x Hx eq_refl).
  rewrite (div_wet_starts_false "pagination-" "pagination-item" x Hx eq_refl).
  discriminate.
Qed.

(** X12.  The pagination pass never loses or changes a node that is no
    pagination marker div and holds none: unlike an open accordion item, a
    pagination scope stops in front of such a node. *)
Theorem pagination_keeps_unrelated render x l :
  none_in (Sel.div_wet_starts "pagination-") x = true ->
  In x l -> In x (buildPagination render l).
Proof.
  intros Hx H. pose proof (none_in_not_selected _ _ Hx) as Hn.
  unfold buildPagination, pagination_loop.
  apply find_remove_keeps; [exact Hx |].
  apply scan_keeps;
    [| exact (div_wet_starts_false "pagination-" "pagination-start" x Hn eq_refl)
     | exact H].
  intros n rest K. unfold pagination_build.
  pose proof (pagination_scope_keeps render x rest Hn [] K) as Q.
  destruct (pagination_scope render [] rest) as [entries rest']. cbn [snd] in *.
  apply remove_end_keeps; [| exact Q].
  exact (div_wet_starts_false "pagination-" "pagination-end" x Hn eq_refl).
Qed.

Lemma pagination_keeps_unrelated_witness :
  In (Element "p" [] [Text "kept"])
    (buildPagination plain_render
       [ marker "pagination-start" []; marker "pagination-item" [Text "1"];
         Element "p" [] [Text "kept"]; marker "pagination-item" [Text "2"];
         marker "pagination-end" [] ]).
Proof.
  apply pagination_keeps_unrelated; [reflexivity |].
  right. right. now left.
Defined.

(** ** The reconstruction as a whole *)

Lemma alerts_id l : none_among alert_marker l = true -> alerts l = l.
Proof. intros H. now apply alert_each_id. Qed.

Lemma tables_id l : none_among table_marker l = true -> tables l = l.
Proof.
  intros H. apply annotate_each_id.
  now rewrite (none_among_ext _ _ _ table_marker_kind).
Qed.

Lemma lists_id l : none_among list_marker l = true -> lists l = l.
Proof.
  intros H. apply annotate_each_id.
  now rewrite (none_among_ext _ _ _ list_marker_kind).
Qed.

Lemma reconstruct_id render parse l :
  none_among alert_marker l = true ->
  none_among table_marker l = true ->
  none_among list_marker l = true ->
  none_among (Sel.div_wet "details-content") l = true ->
  none_among (Sel.div_wet_starts "accordion-") l = true ->
  none_among (Sel.div_wet_starts "pagination-") l = true ->
  forallb (fun n => negb (Sel.div_wet "details-summary" n)) l = true ->
  reconstruct render parse l = l.
Proof.
  intros Ha Ht Hl Hc Hacc Hp Hs. unfold reconstruct.
  rewrite (alerts_id l Ha), (tables_id l Ht), (buildDetails_id render parse l Hs Hc),
    (buildAccordion_id render parse l Hacc), (buildPagination_id render l Hp).
  now apply lists_id.
Qed.

(** X2.  Children of [main] in which no pass finds a marker of its own go
    through the reconstruction unchanged.  Nodes with another [data-wet]
    value, such as the buttons and badges of the style map, and
    details-summary markers below the first level are among them. *)
Theorem reconstruct_unmarked render parse l :
  none_among alert_marker l = true ->
  none_among table_marker l = true ->
  none_among list_marker l = true ->
  none_among (Sel.div_wet "details-content") l = true ->
  none_among (Sel.div_wet_starts "accordion-") l = true ->
  none_among (Sel.div_wet_starts "pagination-") l = true ->
  forallb (fun n => negb (Sel.div_wet "details-summary" n)) l = true ->
  reconstruct render parse l = l.
Proof. exact (reconstruct_id render parse l). Qed.

Lemma reconstruct_unmarked_witness :
  let l :=
    [ Element "a" [("class", "btn btn-primary"); ("data-wet", "btn");
                   ("href", "#"); ("role", "button")] [Text "Apply"];
      Element "span" [("class", "badge"); ("data-wet", "badge-default")] [Text "3"];
      Element "table" [] [Element "tr" [] [Element "td" [] [marker "details-summary" [Text "More"]]]] ] in
  reconstruct plain_render plain_parse l = l.
Proof. cbv zeta. apply reconstruct_unmarked; reflexivity. Defined.

(** X4.  Each pass other than the table pass is idempotent on its own. *)
Theorem passes_idempotent render parse l :
  alerts (alerts l) = alerts l
  /\ buildDetails render parse (buildDetails render parse l) = buildDetails render parse l
  /\ buildAccordion render parse (buildAccordion render parse l)
     = buildAccordion render parse l
  /\ buildPagination render (buildPagination render l) = buildPagination render l
  /\ lists (lists l) = lists l.
Proof.
  split; [| split; [| split; [| split]]].
  - apply alerts_id. apply alert_each_clean. lia.
  - apply buildDetails_id.
    + unfold buildDetails.
      apply top_find_remove; [exact (reads_div_wet "details-summary") |].
      apply details_loop_consumes. lia.
    + apply find_remove_clean, shallow_div_wet.
  - apply buildAccordion_id, find_remove_clean, shallow_div_wet_starts.
  - apply buildPagination_id, find_remove_clean, shallow_div_wet_starts.
  - apply annotate_idempotent; [exact list_kind_shallow | exact list_effect_size].
Qed.

(** ** Tables: unknown kinds and several markers *)

Lemma setAttr_twice name v1 v2 a :
  Dom.setAttr name v2 (Dom.setAttr name v1 a) = Dom.setAttr name v2 a.
Proof.
  induction a as [| [k v] a' IH]; cbn.
  - now rewrite String.eqb_refl.
  - destruct (k =? name) eqn:E; cbn; rewrite E; [reflexivity | now rewrite IH].
Qed.

Lemma set_class_twice c1 c2 n : set_class c2 (set_class c1 n) = set_class c2 n.
Proof. destruct n as [s | t a cs]; [reflexivity |]. cbn. now rewrite setAttr_twice. Qed.

Lemma set_class_tag c t n : Sel.tag_is t (set_class c n) = Sel.tag_is t n.
Proof. now destruct n. Qed.

(** X15.  A marker whose kind starts with [table-] but is neither
    table-responsive nor a key of [tableClassMap] is removed and touches
    nothing, a table among its later siblings included. *)
Theorem table_marker_unknown_kind m kind later :
  table_kind m = Some kind ->
  (kind =? "table-responsive") = false ->
  tableClassMap kind = None ->
  tables (m :: later) = tables later.
Proof.
  intros Hm Hr Hc. unfold tables.
  rewrite (annotate_marker _ _ table_effect_size m kind _ Hm).
  unfold table_effect. now rewrite Hr, Hc.
Qed.

Lemma table_marker_unknown_kind_witness :
  tables [marker "table-fancy" []; Element "table" [("class", "mine")] []]
  = [Element "table" [("class", "mine")] []].
Proof.
  exact (table_marker_unknown_kind (marker "table-fancy" []) "table-fancy"
             [Element "table" [("class", "mine")] []] eq_refl eq_refl eq_refl).
Defined.

(** X14.  Two class markers in front of the same table: both are removed and
    the table ends with the class of the later marker alone. *)
Theorem table_later_marker_wins m1 k1 c1 m2 k2 c2 pre t post :
  table_kind m1 = Some k1 -> tableClassMap k1 = Some c1 ->
  table_kind m2 = Some k2 -> tableClassMap k2 = Some c2 ->
  Sel.tag_is "table" m2 = false ->
  forallb (fun x => negb (Sel.tag_is "table" x)) pre = true ->
  Sel.tag_is "table" t = true ->
  tables (m1 :: m2 :: pre ++ t :: post) = tables (pre ++ set_class c2 t :: post).
Proof.
  intros H1 C1 H2 C2 Hm2 Hpre Ht.
  change (m2 :: pre ++ t :: post) with ((m2 :: pre) ++ t :: post)%list.
  rewrite (table_marker_class m1 k1 c1 (m2 :: pre) t post H1 C1); [| | exact Ht].
  - cbn [app].
    rewrite (table_marker_class m2 k2 c2 pre (set_class c1 t) post H2 C2 Hpre).
    + now rewrite set_class_twice.
    + now rewrite set_class_tag.
  - cbn [forallb]. now rewrite Hm2, Hpre.
Qed.

Lemma table_later_marker_wins_witness :
  tables [ marker "table-striped" []; marker "table-bordered" [];
           Element "p" [] [Text "caption"]; Element "table" [] [] ]
  = [ Element "p" [] [Text "caption"]; Element "table" [("class", "table table-bordered")] [] ].
Proof.
  exact (table_later_marker_wins
             (marker "table-striped" []) "table-striped" "table table-striped"
             (marker "table-bordered" []) "table-bordered" "table table-bordered"
             [Element "p" [] [Text "caption"]] (Element "table" [] []) []
             eq_refl eq_refl eq_refl eq_refl eq_refl eq_refl eq_refl).
Defined.

(** X13.  A table marker of a class kind replaces the class of the first table
    among its later siblings, however many other nodes stand between them,
    and is removed; tables after the first are not touched. *)
Theorem table_class_marker m kind cls pre t post :
  table_kind m = Some kind ->
  tableClassMap kind = Some cls ->
  forallb (fun x => negb (Sel.tag_is "table" x)) pre = true ->
  Sel.tag_is "table" t = true ->
  tables (m :: pre ++ t :: post) = tables (pre ++ set_class cls t :: post).
Proof. exact (table_marker_class m kind cls pre t post). Qed.

(** X17.  A list marker adds its kind to the classes of the first [ul] or [ol]
    among its later siblings, keeping the classes the list has, and is
    removed. *)
Theorem list_class_marker m kind pre t post :
  list_kind m = Some kind ->
  forallb (fun x => negb (is_list x)) pre = true ->
  is_list t = true ->
  lists (m :: pre ++ t :: post) = lists (pre ++ add_class kind t :: post).
Proof. exact (list_marker_class m kind pre t post). Qed.

(** X16.  A table marker with no table among its later siblings is removed and
    nothing else changes, whatever its kind. *)
Theorem table_marker_alone m kind later :
  table_kind m = Some kind ->
  forallb (fun x => negb (Sel.tag_is "table" x)) later = true ->
  tables (m :: later) = tables later.
Proof. exact (table_marker_no_target m kind later). Qed.

(** X18.  A list marker with no list among its later siblings is removed and
    nothing else changes. *)
Theorem list_marker_alone m kind later :
  list_kind m = Some kind ->
  forallb (fun x => negb (is_list x)) later = true ->
  lists (m :: later) = lists later.
Proof. exact (list_marker_no_target m kind later). Qed.

Lemma table_class_marker_witness :
  tables [ marker "table-hover" []; Element "p" [] [Text "between"];
           Element "table" [("class", "old")] []; Element "table" [] [] ]
  = [ Element "p" [] [Text "between"]; Element "table" [("class", "table table-hover")] [];
      Element "table" [] [] ].
Proof.
  exact (table_class_marker (marker "table-hover" []) "table-hover" "table table-hover"
             [Element "p" [] [Text "between"]] (Element "table" [("class", "old")] []) [Element "table" [] []]
             eq_refl eq_refl eq_refl eq_refl).
Defined.

Lemma list_class_marker_witness :
  lists [ marker "list-inline" []; Element "p" [] [Text "between"];
          Element "ul" [("class", "nav")] [Element "li" [] [Text "a"]] ]
  = [ Element "p" [] [Text "between"];
      Element "ul" [("class", "nav list-inline")] [Element "li" [] [Text "a"]] ].
Proof.
  exact (list_class_marker (marker "list-inline" []) "list-inline"
             [Element "p" [] [Text "between"]]
             (Element "ul" [("class", "nav")] [Element "li" [] [Text "a"]]) []
             eq_refl eq_refl eq_refl).
Defined.

Lemma table_marker_alone_witness :
  tables [marker "table-striped" []; Element "p" [] [Text "no table here"]]
  = [Element "p" [] [Text "no table here"]].
Proof.
  exact (table_marker_alone (marker "table-striped" []) "table-striped"
             [Element "p" [] [Text "no table here"]] eq_refl eq_refl).
Defined.

Lemma list_marker_alone_witness :
  lists [marker "list-unstyled" []; Element "table" [] []] = [Element "table" [] []].
Proof.
  exact (list_marker_alone (marker "list-unstyled" []) "list-unstyled"
             [Element "table" [] []] eq_refl eq_refl).
Defined.

(** ** The command line, beyond the exit codes *)

Lemma parse_from_test a : ((a =? "-o") || (a =? "--output")) = is_flag a.
Proof. reflexivity. Qed.

Lemma parse_from_positionals args :
  forall l out pos,
    forallb (fun a => negb (is_flag a)) args = true ->
    Cli.parse_from (args ++ l) out pos = Cli.parse_from l out (pos ++ args)%list.
Proof.
  induction args as [| a args' IH]; intros l out pos H.
  - cbn [app]. now rewrite app_nil_r.
  - cbn in H. apply andb_prop in H. destruct H as [Ha Hargs].
    apply negb_true_iff in Ha.
    cbn [app Cli.parse_from]. rewrite parse_from_test, Ha.
    rewrite (IH l out _ Hargs). now rewrite <- app_assoc.
Qed.

Lemma parse_from_grows rest :
  forall out pos, exists more, snd (Cli.parse_from rest out pos) = (pos ++ more)%list.
Proof.
  assert (G : forall n rest, List.length rest <= n ->
              forall out pos, exists more,
                snd (Cli.parse_from rest out pos) = (pos ++ more)%list).
  { induction n as [| n IH]; intros l Hl out pos.
    - destruct l; [| cbn in Hl; lia]. exists []. cbn. now rewrite app_nil_r.
    - destruct l as [| a l']; [exists []; cbn; now rewrite app_nil_r |].
      cbn in Hl. cbn [Cli.parse_from].
      destruct ((a =? "-o") || (a =? "--output")).
      + destruct l' as [| v l'']; [exists []; cbn; now rewrite app_nil_r |].
        cbn in Hl. apply IH. lia.
      + destruct (IH l' ltac:(lia) out (pos ++ [a])%list) as [more E].
        exists (a :: more). rewrite E, <- app_assoc. reflexivity. }
  intros out pos. now apply (G (List.length rest)).
Qed.

(** X19.  The output option may stand before, between or after the positional
    arguments, under either spelling; its value is taken as it is, and the
    input is the first positional argument. *)
Theorem parseArgs_option_anywhere node script args1 flag value args2 :
  forallb (fun a => negb (is_flag a)) args1 = true ->
  is_flag flag = true ->
  forallb (fun a => negb (is_flag a)) args2 = true ->
  Cli.parseArgs (node :: script :: args1 ++ flag :: value :: args2)
  = {| Cli.input := Cli.truthy (hd_error (args1 ++ args2));
       Cli.output := Some value |}.
Proof.
  intros H1 Hf H2. unfold Cli.parseArgs. cbn [skipn].
  rewrite (parse_from_positionals args1 _ _ _ H1).
  cbn [Cli.parse_from app]. rewrite parse_from_test, Hf.
  rewrite <- (app_nil_r args2) at 1.
  rewrite (parse_from_positionals args2 [] _ _ H2).
  reflexivity.
Qed.

Lemma parseArgs_option_anywhere_witness :
  Cli.parseArgs ("node" :: "convert.js" :: ["in.docx"] ++ "--output" :: "-o" :: ["extra"])
  = {| Cli.input := Some "in.docx"; Cli.output := Some "-o" |}.
Proof.
  exact (parseArgs_option_anywhere "node" "convert.js" ["in.docx"] "--output" "-o" ["extra"]
           eq_refl eq_refl eq_refl).
Defined.

(** X20.  An output option that ends the command line has no value: it leaves
    the output unset and so discards the path an earlier option gave. *)
Theorem parseArgs_trailing_flag node script args1 flag1 value args2 flag2 :
  forallb (fun a => negb (is_flag a)) args1 = true ->
  is_flag flag1 = true ->
  forallb (fun a => negb (is_flag a)) args2 = true ->
  is_flag flag2 = true ->
  Cli.parseArgs (node :: script :: args1 ++ flag1 :: value :: args2 ++ [flag2])
  = {| Cli.input := Cli.truthy (hd_error (args1 ++ args2));
       Cli.output := None |}.
Proof.
  intros H1 Hf1 H2 Hf2. unfold Cli.parseArgs. cbn [skipn].
  rewrite (parse_from_positionals args1 _ _ _ H1).
  cbn [Cli.parse_from app]. rewrite parse_from_test, Hf1.
  rewrite (parse_from_positionals args2 _ _ _ H2).
  cbn [Cli.parse_from]. rewrite parse_from_test, Hf2.
  reflexivity.
Qed.

Lemma parseArgs_trailing_flag_witness :
  Cli.parseArgs ("node" :: "convert.js" :: ["in.docx"] ++ "-o" :: "out.html" :: [] ++ ["-o"])
  = {| Cli.input := Some "in.docx"; Cli.output := None |}.
Proof.
  exact (parseArgs_trailing_flag "node" "convert.js" ["in.docx"] "-o" "out.html" [] "-o"
           eq_refl eq_refl eq_refl eq_refl).
Defined.

(** An empty first positional argument counts as no input, whatever
    follows it on the command line. *)
Lemma parseArgs_empty_first node script rest :
  Cli.input (Cli.parseArgs (node :: script :: EmptyString :: rest)) = None.
Proof.
  unfold Cli.parseArgs. cbn [skipn Cli.parse_from String.eqb orb app].
  destruct (parse_from_grows rest None [EmptyString]) as [more E].
  destruct (Cli.parse_from rest None [EmptyString]) as [out positional].
  cbn [snd] in E. subst positional. reflexivity.
Qed.

Section CliMore.

Context {buffer message error : Type}.
Variable resolve : string -> string.
Variable readFileSync : string -> error + buffer.
Variable convertToHtml : buffer -> error + string * list message.
Variable load_body : string -> error + list node.
Variable render : option string -> list node -> string.
Variable parse : string -> string -> list node.
Variable writeFileSync : string -> string -> option error.
Variable message_text : message -> string.
Variable error_text : error -> string.

Let run_main :=
  Cli.main resolve readFileSync convertToHtml load_body render parse writeFileSync
    message_text error_text.

Let html_of (body : list node) : string :=
  transformPlaceholdersToGCWeb render parse body.

Lemma log_messages_events (ms : list message) :
  Cli.log_messages (error := error) message_text ms
  = (map (fun m => Cli.ConsoleError (" - " ++ message_text m)) ms, inr tt).
Proof.
  induction ms as [| m ms' IH]; [reflexivity |].
  cbn [Cli.log_messages map]. rewrite IH. reflexivity.
Qed.

(** Every run of [main], by what its collaborators answer. *)
Lemma main_cases argv :
  let a := Cli.parseArgs argv in
  match Cli.input a with
  | None =>
      run_main argv = {| Cli.trace := [Cli.ConsoleError Cli.usage]; Cli.exit_code := 2 |}
  | Some inp =>
      match readFileSync (resolve inp) with
      | inl e =>
          run_main argv
          = {| Cli.trace := [Cli.ReadFile (resolve inp); Cli.ConsoleError (error_text e)];
               Cli.exit_code := 1 |}
      | inr buf =>
          match convertToHtml buf with
          | inl e =>
              run_main argv
              = {| Cli.trace := [Cli.ReadFile (resolve inp); Cli.Convert;
                                 Cli.ConsoleError (error_text e)];
                   Cli.exit_code := 1 |}
          | inr (value, ms) =>
              match load_body ("<body>" ++ value ++ "</body>") with
              | inl e =>
                  run_main argv
                  = {| Cli.trace := [Cli.ReadFile (resolve inp); Cli.Convert;
                                     Cli.ConsoleError (error_text e)];
                       Cli.exit_code := 1 |}
              | inr body =>
                  let before :=
                    ([Cli.ReadFile (resolve inp); Cli.Convert]
                       ++ warning_events message_text ms)%list in
                  match Cli.truthy (Cli.output a) with
                  | Some out =>
                      match writeFileSync (resolve out) (html_of body) with
                      | Some e =>
                          run_main argv
                          = {| Cli.trace :=
                                 (before ++ [Cli.WriteFile (resolve out) (html_of body);
                                             Cli.ConsoleError (error_text e)])%list;
                               Cli.exit_code := 1 |}
                      | None =>
                          run_main argv
                          = {| Cli.trace :=
                                 (before
                                    ++ [Cli.WriteFile (resolve out) (html_of body)])%list;
                               Cli.exit_code := 0 |}
                      end
                  | None =>
                      run_main argv
                      = {| Cli.trace := (before ++ [Cli.StdoutWrite (html_of body)])%list;
                           Cli.exit_code := 0 |}
                  end
              end
          end
      end
  end.
Proof.
  intros a. subst run_main html_of. unfold Cli.main. fold a.
  destruct (Cli.input a) as [inp |]; [| reflexivity].
  unfold Cli.run, Cli.convertDocxToHtml, Cli.transform, Cli.attempt, Cli.bind,
    Cli.ret, Cli.emit.
  destruct (readFileSync (resolve inp)) as [e | buf]; [reflexivity |].
  destruct (convertToHtml buf) as [e | [value ms]]; [reflexivity |].
  cbn [fst snd].
  destruct (load_body ("<body>" ++ value ++ "</body>")) as [e | body]; [reflexivity |].
  cbn [fst snd app].
  destruct (Cli.truthy (Cli.output a)) as [out |];
    [destruct (writeFileSync (resolve out) _) as [e |] |];
    (destruct ms as [| m ms'];
     [reflexivity
     | rewrite log_messages_events; cbn [warning_events app];
       rewrite <- ?app_assoc; reflexivity]).
Qed.

Lemma warning_events_quiet (p : Cli.event -> bool) (ms : list message) :
  (forall line, p (Cli.ConsoleError line) = true) ->
  forallb p (warning_events message_text ms) = true.
Proof.
  intros Hp. unfold warning_events. destruct ms as [| m ms']; [reflexivity |].
  cbn [forallb]. rewrite Hp. cbn [andb].
  apply forallb_forall. intros e He. apply in_map_iff in He.
  destruct He as (x & <- & _). apply Hp.
Qed.

(** X21.  [main] exits with 2 exactly when [parseArgs] finds no input, and then
    it has only printed the usage line; an empty first positional
    argument is such a case. *)
Theorem main_usage_exactly argv :
  (Cli.exit_code (run_main argv) = 2 <-> Cli.input (Cli.parseArgs argv) = None)
  /\ (Cli.exit_code (run_main argv) = 2 ->
      Cli.trace (run_main argv) = [Cli.ConsoleError Cli.usage])
  /\ (forall node script rest,
         argv = node :: script :: EmptyString :: rest ->
         Cli.exit_code (run_main argv) = 2).
Proof.
  pose proof (main_cases argv) as M. cbv zeta in M.
  assert (E : Cli.exit_code (run_main argv) = 2 <-> Cli.input (Cli.parseArgs argv) = None).
  { destruct (Cli.input (Cli.parseArgs argv)) as [inp |].
    - split; [| discriminate]. intros H. exfalso. revert H.
      destruct (readFileSync (resolve inp)) as [e | buf]; [rewrite M; discriminate |].
      destruct (convertToHtml buf) as [e | [value ms]]; [rewrite M; discriminate |].
      destruct (load_body ("<body>" ++ value ++ "</body>")) as [e | body];
        [rewrite M; discriminate |].
      destruct (Cli.truthy (Cli.output (Cli.parseArgs argv))) as [out |];
        [destruct (writeFileSync (resolve out) (html_of body)) |];
        rewrite M; discriminate.
    - rewrite M. now split. }
  split; [exact E |]. split.
  - intros H. apply E in H. rewrite H in M. now rewrite M.
  - intros node script rest ->. apply E, parseArgs_empty_first.
Qed.

(** X22.  The document goes to one place only: with an output path nothing is
    ever written to the standard output, without one no file is ever
    written. *)
Theorem main_one_destination argv :
  (forall out,
      Cli.truthy (Cli.output (Cli.parseArgs argv)) = Some out ->
      forallb (fun e => negb (writes_stdout e)) (Cli.trace (run_main argv)) = true)
  /\ (Cli.truthy (Cli.output (Cli.parseArgs argv)) = None ->
      forallb (fun e => negb (writes_file e)) (Cli.trace (run_main argv)) = true).
Proof.
  pose proof (main_cases argv) as M. cbv zeta in M.
  split.
  - intros out Ho. rewrite Ho in M.
    destruct (Cli.input (Cli.parseArgs argv)) as [inp |]; [| now rewrite M].
    destruct (readFileSync (resolve inp)) as [e | buf]; [now rewrite M |].
    destruct (convertToHtml buf) as [e | [value ms]]; [now rewrite M |].
    destruct (load_body ("<body>" ++ value ++ "</body>")) as [e | body];
      [now rewrite M |].
    destruct (writeFileSync (resolve out) (html_of body)); rewrite M;
      cbn [Cli.trace]; rewrite !forallb_app, warning_events_quiet; reflexivity.
  - intros Ho. rewrite Ho in M.
    destruct (Cli.input (Cli.parseArgs argv)) as [inp |]; [| now rewrite M].
    destruct (readFileSync (resolve inp)) as [e | buf]; [now rewrite M |].
    destruct (convertToHtml buf) as [e | [value ms]]; [now rewrite M |].
    destruct (load_body ("<body>" ++ value ++ "</body>")) as [e | body];
      [now rewrite M |].
    rewrite M. cbn [Cli.trace].
    rewrite !forallb_app, warning_events_quiet; reflexivity.
Qed.

(** X23.  When writing the output file throws, the warnings have already been
    printed, the error is printed after the attempt and the exit status is
    1; nothing goes to the standard output. *)
Theorem main_write_failure argv inp buf value ms body out e :
  Cli.input (Cli.parseArgs argv) = Some inp ->
  readFileSync (resolve inp) = inr buf ->
  convertToHtml buf = inr (value, ms) ->
  load_body ("<body>" ++ value ++ "</body>") = inr body ->
  Cli.truthy (Cli.output (Cli.parseArgs argv)) = Some out ->
  writeFileSync (resolve out) (html_of body) = Some e ->
  run_main argv
  = {| Cli.trace :=
         ([Cli.ReadFile (resolve inp); Cli.Convert]
            ++ warning_events message_text ms
            ++ [Cli.WriteFile (resolve out) (html_of body);
                Cli.ConsoleError (error_text e)])%list;
       Cli.exit_code := 1 |}.
Proof.
  intros Hi Hr Hc Hl Ho Hw.
  pose proof (main_cases argv) as M. cbv zeta in M.
  rewrite Hi, Hr, Hc, Hl, Ho, Hw in M. rewrite M. now rewrite <- app_assoc.
Qed.

End CliMore.

Lemma main_usage_exactly_witness :
  let run :=
    Cli.main (fun p => p) (fun _ : string => @inr string string "bytes")
      (fun _ : string => @inr string (string * list string) ("<p>Hi</p>", []))
      (fun _ => @inr string (list node) [Element "p" [] [Text "Hi"]])
      plain_render plain_parse (fun _ _ => None)
      (fun m => m) (fun e => e) in
  let argv := ["node"; "convert.js"; EmptyString; "in.docx"] in
  Cli.exit_code (run argv) = 2
  /\ Cli.trace (run argv) = [Cli.ConsoleError Cli.usage]
  /\ Cli.input (Cli.parseArgs argv) = None.
Proof.
  intros run argv.
  pose proof (main_usage_exactly (fun p => p) (fun _ : string => @inr string string "bytes")
                (fun _ : string => @inr string (string * list string) ("<p>Hi</p>", []))
                (fun _ => @inr string (list node) [Element "p" [] [Text "Hi"]])
                plain_render plain_parse (fun _ _ => None)
                (fun m => m) (fun e => e) argv) as (Iff & Trace & Empty).
  pose proof (Empty "node" "convert.js" ["in.docx"] eq_refl) as Two.
  split; [exact Two |]. split; [exact (Trace Two) | exact (proj1 Iff Two)].
Defined.

Lemma main_one_destination_witness :
  let run :=
    Cli.main (fun p => p) (fun _ : string => @inr string string "bytes")
      (fun _ : string => @inr string (string * list string) ("<p>Hi</p>", ["style"]))
      (fun _ => @inr string (list node) [Element "p" [] [Text "Hi"]])
      plain_render plain_parse (fun _ _ => None)
      (fun m => m) (fun e => e) in
  forallb (fun e => negb (writes_stdout e))
    (Cli.trace (run ["node"; "convert.js"; "in.docx"; "-o"; "out.html"])) = true
  /\ forallb (fun e => negb (writes_file e))
       (Cli.trace (run ["node"; "convert.js"; "in.docx"; "-o"; EmptyString])) = true.
Proof.
  intros run.
  pose (fact := main_one_destination (fun p => p) (fun _ : string => @inr string string "bytes")
                  (fun _ : string => @inr string (string * list string) ("<p>Hi</p>", ["style"]))
                  (fun _ => @inr string (list node) [Element "p" [] [Text "Hi"]])
                  plain_render plain_parse (fun _ _ => None)
                  (fun m => m) (fun e => e)).
  split.
  - exact (proj1 (fact ["node"; "convert.js"; "in.docx"; "-o"; "out.html"])
             "out.html" eq_refl).
  - exact (proj2 (fact ["node"; "convert.js"; "in.docx"; "-o"; EmptyString]) eq_refl).
Defined.

Lemma main_write_failure_witness :
  Cli.main (fun p => p) (fun _ : string => @inr string string "bytes")
    (fun _ : string => @inr string (string * list string) ("<p>Hi</p>", ["style"]))
    (fun _ => @inr string (list node) [Element "p" [] [Text "Hi"]])
    plain_render plain_parse (fun _ _ => Some "EACCES")
    (fun m => m) (fun e => e)
    ["node"; "convert.js"; "in.docx"; "-o"; "out.html"]
  = {| Cli.trace :=
         [ Cli.ReadFile "in.docx"; Cli.Convert;
           Cli.ConsoleError "mammoth messages:"; Cli.ConsoleError " - style";
           Cli.WriteFile "out.html"
             (transformPlaceholdersToGCWeb plain_render plain_parse [Element "p" [] [Text "Hi"]]);
           Cli.ConsoleError "EACCES" ];
       Cli.exit_code := 1 |}.
Proof.
  exact (main_write_failure (fun p => p) (fun _ : string => @inr string string "bytes")
           (fun _ : string => @inr string (string * list string) ("<p>Hi</p>", ["style"]))
           (fun _ => @inr string (list node) [Element "p" [] [Text "Hi"]])
           plain_render plain_parse (fun _ _ => Some "EACCES")
           (fun m => m) (fun e => e)
           ["node"; "convert.js"; "in.docx"; "-o"; "out.html"]
           "in.docx" "bytes" "<p>Hi</p>" ["style"] [Element "p" [] [Text "Hi"]] "out.html" "EACCES"
           eq_refl eq_refl eq_refl eq_refl eq_refl eq_refl).
Defined.

(** ** The tree [transformPlaceholdersToGCWeb] serialises *)

Lemma reconstruct_leaves render parse l :
  let out := reconstruct render parse l in
  let top sel := forallb (fun n => negb (sel n)) out in
  none_among list_marker out = true
  /\ none_among (Sel.div_wet_starts "accordion-") out = true
  /\ none_among (Sel.div_wet_starts "pagination-") out = true
  /\ top alert_marker = true
  /\ top table_marker = true
  /\ top (Sel.div_wet "details-content") = true
  /\ top (Sel.div_wet "details-summary") = true.
Proof.
  cbv zeta. unfold reconstruct.
  repeat match goal with |- _ /\ _ => split end.
  - rewrite <- (none_among_ext _ _ _ list_marker_kind).
    apply (annotate_each_clean _ _ list_kind_shallow list_effect_size). lia.
  - apply lists_preserves, buildPagination_preserves;
      try exact (reads_div_wet_starts "accordion-").
    apply find_remove_clean, shallow_div_wet_starts.
  - apply lists_preserves; [exact (reads_div_wet_starts "pagination-") |].
    apply find_remove_clean, shallow_div_wet_starts.
  - apply top_lists, top_buildPagination, top_buildAccordion, top_buildDetails,
      top_tables; try exact (reads_attr_starts "alert-").
    apply none_among_top, alert_each_clean. lia.
  - apply top_lists, top_buildPagination, top_buildAccordion, top_buildDetails;
      try exact (reads_attr_starts "table-").
    apply none_among_top.
    rewrite <- (none_among_ext _ _ _ table_marker_kind).
    apply (annotate_each_clean _ _ table_kind_shallow table_effect_size). lia.
  - apply top_lists, top_buildPagination, top_buildAccordion;
      try exact (reads_div_wet "details-content").
    apply none_among_top, find_remove_clean, shallow_div_wet.
  - apply top_lists, top_buildPagination, top_buildAccordion;
      try exact (reads_div_wet "details-summary").
    unfold buildDetails.
    apply top_find_remove; [exact (reads_div_wet "details-summary") |].
    apply details_loop_consumes. lia.
Qed.

(** X1.  In the tree the function returns, for any parsed body and whatever
    the parser makes of the inner HTML it is given: no node carries a list
    marker; no div carries an accordion or a pagination marker; and no
    child of [main] carries an alert or a table marker or is a
    details-content or details-summary marker div. *)
Theorem transform_closed render parse body :
  let out := transform_tree render parse body in
  let top sel := forallb (fun n => negb (sel n)) (Dom.childNodes out) in
  none_in list_marker out = true
  /\ none_in (Sel.div_wet_starts "accordion-") out = true
  /\ none_in (Sel.div_wet_starts "pagination-") out = true
  /\ top alert_marker = true
  /\ top table_marker = true
  /\ top (Sel.div_wet "details-content") = true
  /\ top (Sel.div_wet "details-summary") = true.
Proof.
  cbv zeta. unfold transform_tree. cbn [Dom.childNodes].
  destruct (reconstruct_leaves render parse (filter Dom.isTag body))
    as (L & Acc & P & A & T & C & S).
  cbv zeta in L, Acc, P, A, T, C, S.
  repeat match goal with |- _ /\ _ => split end;
    try assumption;
    (apply fresh_clean; [| reflexivity | assumption]).
  - exact reads_list_marker.
  - exact (reads_div_wet_starts "accordion-").
  - exact (reads_div_wet_starts "pagination-").
Qed.
